(** * AR_Prediction: autoregressive forecasting with differencing

    A shallow embedding of [src/ARModel.cpp] and of the numeric core of
    [src/main.cpp], with the properties the specification states about them.

    The C++ code computes on [double].  Every function below is written once,
    over an abstract interface [Scalar] that lists the operations the source
    applies to a [double], and is then read at two instances:

    - [binary64]: the kernel's IEEE-754 binary64 numbers.  This is what the
      compiled program computes; concrete runs of the code are evaluated here.
    - [exact]: the real numbers, that is the same code run without rounding.

    Vectors are lists; [v[i]] is the total lookup [v !!! i] and [v[i] = x] is
    the list update [<[i:=x]> v].  An index outside the vector is undefined
    behaviour in the source; the theorems carry the length conditions under
    which no such access occurs. *)

From Stdlib Require Import ZArith List Lia Reals Lra Floats.
From stdpp Require Import base list_numbers strings gmap.

Local Open Scope Z_scope.

(** ** The operations of [double] used by the source *)

Class Scalar (T : Type) := {
  fzero : T;                    (* the literal 0.0 *)
  fone : T;                     (* the literal 1.0 *)
  fhundred : T;                 (* the literal 100.0 *)
  fadd : T -> T -> T;
  fsub : T -> T -> T;
  fmul : T -> T -> T;
  fdiv : T -> T -> T;
  fabs : T -> T;                (* std::fabs *)
  fsqrt : T -> T;               (* std::sqrt *)
  feqb : T -> T -> bool;        (* operator== *)
  fltb : T -> T -> bool;        (* operator<  *)
  of_int : Z -> T               (* conversion of an integer to double *)
}.

(** [std::numeric_limits<double>::infinity()] *)
Class Infinity (T : Type) := finfinity : T.

Declare Scope scalar_scope.
Delimit Scope scalar_scope with sc.
Infix "+" := fadd : scalar_scope.
Infix "-" := fsub : scalar_scope.
Infix "*" := fmul : scalar_scope.
Infix "/" := fdiv : scalar_scope.

#[global] Instance scalar_inhabited `{Scalar T} : Inhabited T := populate fzero.

(** *** binary64 *)

Definition float_of_int (z : Z) : float :=
  if z <? 0 then PrimFloat.opp (PrimFloat.of_uint63 (Uint63.of_Z (- z)))
  else PrimFloat.of_uint63 (Uint63.of_Z z).

#[global] Instance binary64 : Scalar float := {|
  fzero := 0%float;
  fone := 1%float;
  fhundred := 100%float;
  fadd := PrimFloat.add;
  fsub := PrimFloat.sub;
  fmul := PrimFloat.mul;
  fdiv := PrimFloat.div;
  fabs := PrimFloat.abs;
  fsqrt := PrimFloat.sqrt;
  feqb := PrimFloat.eqb;
  fltb := PrimFloat.ltb;
  of_int := float_of_int
|}.

#[global] Instance binary64_infinity : Infinity float := PrimFloat.infinity.

(** *** Exact real arithmetic *)

Definition Reqb (x y : R) : bool := if Req_dec_T x y then true else false.
Definition Rltb (x y : R) : bool := if Rlt_dec x y then true else false.

#[global] Instance exact : Scalar R := {|
  fzero := 0%R;
  fone := 1%R;
  fhundred := 100%R;
  fadd := Rplus;
  fsub := Rminus;
  fmul := Rmult;
  fdiv := Rdiv;
  fabs := Rabs;
  fsqrt := R_sqrt.sqrt;
  feqb := Reqb;
  fltb := Rltb;
  of_int := IZR
|}.

(** ** Integer conversions *)

(** [int n = data_.size()]: a [size_t] narrowed to a 32-bit [int]. *)
Definition to_int (z : Z) : Z := (z + 2 ^ 31) mod 2 ^ 32 - 2 ^ 31.

(** [static_cast<size_t>(order_)]: an [int] widened to 64 bits, modulo 2^64. *)
Definition to_size_t (z : Z) : Z := z mod 2 ^ 64.

(** ** Loops and vectors *)

(** [for (i = lo; i < hi; ++i) s = body(s, i)] *)
Definition for_loop {S : Type} (lo hi : nat) (body : S -> nat -> S) (s : S) : S :=
  fold_left body (seq lo (hi - lo)) s.

(** [v.resize(n, x)] *)
Definition resize {A : Type} (v : list A) (n : nat) (x : A) : list A :=
  take n v ++ replicate (n - length v) x.

(** ** ARModel.cpp *)

Section ARModel.
Context {T : Type} `{Scalar T}.
Local Open Scope scalar_scope.

Record ARModel := mkModel {
  data_ : list T;
  order_ : Z;
  coefficients_ : list T;
  autocorrelation_ : list T
}.

(** The constructor: the two vectors start empty. *)
Definition newARModel (data : list T) (order : Z) : ARModel :=
  mkModel data order [] [].

Definition getCoefficients (m : ARModel) : list T := coefficients_ m.

(** The inner loop of [computeAutocorrelation] for one lag. *)
Definition lag_sum (data : list T) (n : Z) (lag : nat) : T :=
  for_loop lag (Z.to_nat n)
    (fun sum i => sum + data !!! i * data !!! (i - lag)%nat) fzero.

Definition computeAutocorrelation (m : ARModel) : ARModel :=
  let n := to_int (Z.of_nat (length (data_ m))) in
  let ac0 := resize (autocorrelation_ m) (Z.to_nat (order_ m + 1)) fzero in
  let ac :=
    for_loop 0 (Z.to_nat (order_ m + 1))
      (fun ac lag => <[lag := lag_sum (data_ m) n lag / of_int n]> ac) ac0 in
  mkModel (data_ m) (order_ m) (coefficients_ m) ac.

(** One pass of the Levinson-Durbin loop, for the given [k], on the local
    vectors [a] and [e].  The second inner loop updates [a] in place: each
    iteration reads the vector as the previous iterations left it. *)
Definition levinson_step (ac : list T) (st : list T * list T) (k : nat)
  : list T * list T :=
  let '(a, e) := st in
  let lambda0 :=
    for_loop 1 k (fun l j => l + a !!! j * ac !!! (k - j)%nat) fzero in
  let lambda := (ac !!! k - lambda0) / e !!! (k - 1)%nat in
  let a := <[k := lambda]> a in
  let a :=
    for_loop 1 k
      (fun a j => <[j := a !!! j - lambda * a !!! (k - j)%nat]> a) a in
  let e := <[k := e !!! (k - 1)%nat * (fone - lambda * lambda)]> e in
  (a, e).

(** The vectors [a] and [e] when the Levinson-Durbin loop has finished. *)
Definition levinson_durbin (ac : list T) (order : Z) : list T * list T :=
  let a := replicate (Z.to_nat (order + 1)) fzero in
  let e := replicate (Z.to_nat (order + 1)) fzero in
  let a := <[0%nat := fone]> a in
  let e := <[0%nat := ac !!! 0%nat]> e in
  for_loop 1 (Z.to_nat (order + 1)) (levinson_step ac) (a, e).

Definition store_coefficients (coefficients a : list T) (order : Z) : list T :=
  for_loop 0 (Z.to_nat order)
    (fun c i => <[i := a !!! (i + 1)%nat]> c)
    (resize coefficients (Z.to_nat order) fzero).

(** The result, the object afterwards, and the lines written to [std::cerr]. *)
Definition computeCoefficients (m : ARModel) : bool * ARModel * list string :=
  if Z.of_nat (length (data_ m)) <? to_size_t (order_ m) then
    (false, m, ["Not enough data to compute AR coefficients."%string])
  else
    let m := computeAutocorrelation m in
    if feqb (autocorrelation_ m !!! 0%nat) fzero then
      (false, m, ["Zero lag autocorrelation. Cannot compute coefficients."%string])
    else
      let '(a, _) := levinson_durbin (autocorrelation_ m) (order_ m) in
      (true,
       mkModel (data_ m) (order_ m)
         (store_coefficients (coefficients_ m) a (order_ m))
         (autocorrelation_ m),
       []).

Definition forwardPredict (m : ARModel) : T * list string :=
  if Z.of_nat (length (data_ m)) <? to_size_t (order_ m) then
    (fzero, ["Insufficient data for one-step forward prediction."%string])
  else
    (for_loop 0 (Z.to_nat (order_ m))
       (fun prediction i =>
          prediction
          + coefficients_ m !!! i * data_ m !!! (length (data_ m) - 1 - i)%nat)
       fzero,
     []).

(** One pass of the loop over [step] in [forwardPredictSteps].  [tail] is
    [window.erase(window.begin())] on a window that is not empty, that is for
    [order_ >= 1]; with [order_ = 0] the window is empty and the erase of the
    code is undefined, so the properties of the passes assume [1 <= order_]. *)
Definition predict_step (m : ARModel) (st : list T * list T) (_ : nat)
  : list T * list T :=
  let '(predictions, window) := st in
  let pred :=
    for_loop 0 (Z.to_nat (order_ m))
      (fun pred i =>
         pred + coefficients_ m !!! i * window !!! (Z.to_nat (order_ m) - 1 - i)%nat)
      fzero in
  (predictions ++ [pred], tail window ++ [pred]).

(** The calls that return: [predictions.reserve(k)] throws
    [std::length_error] for a negative [k], so the properties of the
    function assume [0 <= k]. *)
Definition forwardPredictSteps (m : ARModel) (k : Z) : list T * list string :=
  if Z.of_nat (length (data_ m)) <? to_size_t (order_ m) then
    ([], ["Insufficient data for multi-step prediction."%string])
  else
    let window := drop (length (data_ m) - Z.to_nat (order_ m)) (data_ m) in
    (fst (for_loop 0 (Z.to_nat k) (predict_step m) ([], window)), []).

End ARModel.

Arguments ARModel T : clear implicits.

(** ** main.cpp *)

Section Main.
Context {T : Type} `{Scalar T}.
Local Open Scope scalar_scope.

Record ErrorMetrics := mkErrors { mse : T; rmse : T; mape : T }.

(** One pass of the loop of [computeErrors], on [(sumSq, sumAbsPct)]. *)
Definition errors_step (forecast actual : list T) (acc : T * T) (i : nat) : T * T :=
  let '(sumSq, sumAbsPct) := acc in
  let diff := forecast !!! i - actual !!! i in
  (sumSq + diff * diff,
   if negb (feqb (actual !!! i) fzero)
   then sumAbsPct + fabs (diff / actual !!! i) * fhundred
   else sumAbsPct).

Definition computeErrors (forecast actual : list T) : ErrorMetrics :=
  if negb (length forecast =? length actual)%nat || (length forecast =? 0)%nat
  then mkErrors fzero fzero fzero
  else
    let '(sumSq, sumAbsPct) :=
      for_loop 0 (length forecast) (errors_step forecast actual) (fzero, fzero) in
    let mse := sumSq / of_int (Z.of_nat (length forecast)) in
    mkErrors mse (fsqrt mse) (sumAbsPct / of_int (Z.of_nat (length forecast))).

(** Step 2 of [main]: the first differences of the training prices.  The
    bound [trainPrices.size() - 1] is computed on [size_t]. *)
Definition difference (trainPrices : list T) : list T :=
  for_loop 0 (Z.to_nat (to_size_t (Z.of_nat (length trainPrices) - 1)))
    (fun diffData i => diffData ++ [trainPrices !!! (i + 1)%nat - trainPrices !!! i])
    [].

(** The reconstruction loop of the sweep: [forecastedPrices] has
    [validDays] entries and entry [i] receives the running price. *)
Definition integrate (lastTrainPrice : T) (forecastedDiff : list T) (validDays : Z)
  : list T :=
  snd (for_loop 0 (Z.to_nat validDays)
         (fun '(currentPrice, forecastedPrices) i =>
            let currentPrice := currentPrice + forecastedDiff !!! i in
            (currentPrice, <[i := currentPrice]> forecastedPrices))
         (lastTrainPrice, replicate (Z.to_nat validDays) fzero)).

Context `{Infinity T}.

(** The variables the order-selection loop of [main] writes. *)
Record Sweep := mkSweep {
  orders : list T;
  mses : list T;
  rmses : list T;
  mapes : list T;
  bestMse : T;
  bestOrder : Z;
  bestForecastedPrices : list T;
  cerr : list string
}.

(** What one candidate order yields: [None] when the fit fails, otherwise
    the integrated forecast and its error metrics. *)
Definition candidate (diffData validPrices : list T) (lastTrainPrice : T)
    (validDays order : Z) : option (list T * ErrorMetrics) * list string :=
  let model := newARModel diffData order in
  match computeCoefficients model with
  | (false, _, log) => (None, log)
  | (true, model, log) =>
      let '(forecastedDiff, log') := forwardPredictSteps model validDays in
      let forecastedPrices := integrate lastTrainPrice forecastedDiff validDays in
      (Some (forecastedPrices, computeErrors forecastedPrices validPrices),
       log ++ log')
  end.

(** The body of the loop over [order]. *)
Definition sweep_step (diffData validPrices : list T) (lastTrainPrice : T)
    (validDays : Z) (s : Sweep) (order : Z) : Sweep :=
  match candidate diffData validPrices lastTrainPrice validDays order with
  | (None, log) =>
      mkSweep (orders s ++ [of_int order]) (mses s ++ [finfinity])
        (rmses s ++ [finfinity]) (mapes s ++ [finfinity])
        (bestMse s) (bestOrder s) (bestForecastedPrices s) (cerr s ++ log)
  | (Some (forecastedPrices, em), log) =>
      let orders := orders s ++ [of_int order] in
      let mses := mses s ++ [mse em] in
      let rmses := rmses s ++ [rmse em] in
      let mapes := mapes s ++ [mape em] in
      if fltb (mse em) (bestMse s)
      then mkSweep orders mses rmses mapes (mse em) order forecastedPrices
             (cerr s ++ log)
      else mkSweep orders mses rmses mapes (bestMse s) (bestOrder s)
             (bestForecastedPrices s) (cerr s ++ log)
  end.

(** [for (int order = first; order <= maxOrder; ++order)], entered with
    [bestMse] infinite, [bestOrder = bestOrder0] and no forecast kept. *)
Definition select_order (bestOrder0 first maxOrder : Z)
    (diffData validPrices : list T) (lastTrainPrice : T) (validDays : Z) : Sweep :=
  fold_left (sweep_step diffData validPrices lastTrainPrice validDays)
    (seqZ first (maxOrder - first + 1))
    (mkSweep [] [] [] [] finfinity bestOrder0 [] []).

(** Steps 1 to 3 of [main] on the generated price series: 300 days, of
    which 240 train the model; orders 20 to 80. *)
Definition main_selection (fullPrices : list T) : Sweep :=
  let totalDays := 300 in
  let trainDays := 240 in
  let validDays := (totalDays - trainDays)%Z in
  let trainPrices := take (Z.to_nat trainDays) fullPrices in
  let validPrices := drop (Z.to_nat trainDays) fullPrices in
  let diffData := difference trainPrices in
  let maxOrder := 80 in
  let lastTrainPrice := trainPrices !!! (length trainPrices - 1)%nat in
  select_order 20 20 maxOrder diffData validPrices lastTrainPrice validDays.

End Main.

Arguments ErrorMetrics T : clear implicits.
Arguments Sweep T : clear implicits.

(** *** The rest of [main]

    The two writers replace the content of the named file by the numbers
    they are given, one per line.  A file system is modelled as a finite map
    from file names to number sequences; the formatting of the numbers, the
    case that a file cannot be opened, and the lines on [std::cout] are left
    out. *)

Section Program.
Context {T : Type} `{Scalar T} `{Infinity T}.
Local Open Scope scalar_scope.

Definition writeVectorToFile (filename : string) (data : list T)
    (fs : gmap string (list T)) : gmap string (list T) :=
  <[filename := data]> fs.

Definition writeSingleValueToFile (filename : string) (value : T)
    (fs : gmap string (list T)) : gmap string (list T) :=
  <[filename := [value]]> fs.

(** The reconstruction loop of step 4: [forecastedPrices] has as many
    entries as [bestForecastedDiff]. *)
Definition integrate_all (lastTrainPrice : T) (bestForecastedDiff : list T) : list T :=
  snd (for_loop 0 (length bestForecastedDiff)
         (fun '(currentPrice, forecastedPrices) i =>
            let currentPrice := currentPrice + bestForecastedDiff !!! i in
            (currentPrice, <[i := currentPrice]> forecastedPrices))
         (lastTrainPrice, replicate (length bestForecastedDiff) fzero)).

(** Step 5: [for (int i = 0; i < count; ++i) time.push_back(start + i)]. *)
Definition time_indices (start count : Z) : list T :=
  for_loop 0 (Z.to_nat count)
    (fun time i => time ++ [of_int (start + Z.of_nat i)]) [].

(** [main], from the generated price series on: the exit code and the files
    afterwards. *)
Definition main (fullPrices : list T) (fs : gmap string (list T))
  : Z * gmap string (list T) :=
  let totalDays := 300%Z in
  let trainDays := 240%Z in
  let validDays := (totalDays - trainDays)%Z in
  let fs := writeVectorToFile "full_prices.txt" fullPrices fs in
  let trainPrices := take (Z.to_nat trainDays) fullPrices in
  let validPrices := drop (Z.to_nat trainDays) fullPrices in
  let fs := writeVectorToFile "train_prices.txt" trainPrices fs in
  let fs := writeVectorToFile "actual_future_prices.txt" validPrices fs in
  let diffData := difference trainPrices in
  let fs := writeVectorToFile "log_returns.txt" diffData fs in
  let lastTrainPrice := trainPrices !!! (length trainPrices - 1)%nat in
  let sweep := main_selection fullPrices in
  let fs := writeVectorToFile "ar_orders.txt" (orders sweep) fs in
  let fs := writeVectorToFile "ar_mses.txt" (mses sweep) fs in
  let fs := writeVectorToFile "ar_rmses.txt" (rmses sweep) fs in
  let fs := writeVectorToFile "ar_mapes.txt" (mapes sweep) fs in
  let bestModel := newARModel diffData (bestOrder sweep) in
  match computeCoefficients bestModel with
  | (false, _, _) => ((-1)%Z, fs)
  | (true, bestModel, _) =>
      let bestForecastedDiff := fst (forwardPredictSteps bestModel validDays) in
      let fs := writeVectorToFile "forecasted_diff.txt" bestForecastedDiff fs in
      let forecastedPrices := integrate_all lastTrainPrice bestForecastedDiff in
      let fs := writeVectorToFile "forecasted_prices.txt" forecastedPrices fs in
      let oneStepDiff := fst (forwardPredict bestModel) in
      let oneStepPrice := lastTrainPrice + oneStepDiff in
      let fs := writeSingleValueToFile "one_step_diff.txt" oneStepDiff fs in
      let fs := writeSingleValueToFile "one_step_price.txt" oneStepPrice fs in
      let fs := writeVectorToFile "train_time_indices.txt" (time_indices 0 trainDays) fs in
      let fs :=
        writeVectorToFile "forecast_time_indices.txt"
          (time_indices trainDays validDays) fs in
      let em_best := computeErrors forecastedPrices validPrices in
      let fs := writeSingleValueToFile "validation_mse.txt" (mse em_best) fs in
      let fs := writeSingleValueToFile "validation_rmse.txt" (rmse em_best) fs in
      let fs := writeSingleValueToFile "validation_mape.txt" (mape em_best) fs in
      (0%Z, fs)
  end.

End Program.

(** ** SyntheticDataGenerator.cpp

    [std::mt19937] and [std::normal_distribution] are not modelled: the
    generator is read as a function of the values [dist(gen)] returns, [draws
    i] being the value of the call in pass [i].  [fexp] stands for
    [std::exp] and [fhalf] for the literal [0.5].  The calls that return are
    embedded: [prices.reserve(n)] throws [std::length_error] for a negative
    [n], so the properties of the function assume [0 <= n]. *)

Section Generator.
Context {T : Type} `{Scalar T}.
Variables (fexp : T -> T) (fhalf : T) (draws : nat -> T).
Local Open Scope scalar_scope.

Definition generateGBM (n : Z) (S0 mu sigma deltaT : T) : list T :=
  snd (for_loop 0 (Z.to_nat n)
         (fun '(currentPrice, prices) i =>
            let Z := draws i in
            let currentPrice :=
              currentPrice
              * fexp ((mu - fhalf * sigma * sigma) * deltaT
                      + sigma * fsqrt deltaT * Z) in
            (currentPrice, prices ++ [currentPrice]))
         (S0, [])).

End Generator.

(** * The vocabulary of the properties *)

(** The values of a C++ [int]. *)
Definition int_range (z : Z) : Prop := - 2 ^ 31 <= z < 2 ^ 31.

Section Vocabulary.
Context {T : Type} `{Scalar T}.
Local Open Scope scalar_scope.

(** The sum of a list of terms, added one after the other from [0.0]. *)
Definition sum_terms (terms : list T) : T := fold_left fadd terms fzero.

(** The biased sample autocorrelation of [data] at [lag], as a formula:
    the sum of the terms [data[i] * data[i - lag]] for [i] from [lag] to
    [n - 1], divided by [n]. *)
Definition sample_autocorrelation (data : list T) (lag : nat) : T :=
  sum_terms (map (fun i => data !!! i * data !!! (i - lag)%nat)
               (seq lag (length data - lag)))
  / of_int (Z.of_nat (length data)).

(** The squared difference and the percentage term of one index. *)
Definition squared_error (p : T * T) : T :=
  let '(f, a) := p in (f - a) * (f - a).

Definition percentage_error (p : T * T) : T :=
  let '(f, a) := p in fabs ((f - a) / a) * fhundred.

Definition actual_nonzero (p : T * T) : bool := negb (feqb (snd p) fzero).

(** The running sum of [diffs] from [base]: [base + diffs[0]], then each
    entry the one before it plus the next difference. *)
Fixpoint running_sum (base : T) (diffs : list T) : list T :=
  match diffs with
  | [] => []
  | d :: diffs => (base + d) :: running_sum (base + d) diffs
  end.

(** The dot product both forecasts compute: coefficient [i] against the
    observation [i] places before the last one. *)
Definition trailing_dot (m : ARModel T) : T :=
  for_loop 0 (Z.to_nat (order_ m))
    (fun prediction i =>
       prediction
       + coefficients_ m !!! i * data_ m !!! (length (data_ m) - 1 - i)%nat)
    fzero.

(** The recursion as the specification words it: in pass [k] the update
    [a[j] -= lambda * a[k - j]] for [j = 1 .. k - 1] is simultaneous, every
    read taking the value the entry had before the update.  [a0] below is
    that snapshot. *)
Definition levinson_step_simultaneous (ac : list T) (st : list T * list T) (k : nat)
  : list T * list T :=
  let '(a, e) := st in
  let lambda0 :=
    for_loop 1 k (fun l j => l + a !!! j * ac !!! (k - j)%nat) fzero in
  let lambda := (ac !!! k - lambda0) / e !!! (k - 1)%nat in
  let a0 := <[k := lambda]> a in
  let a :=
    for_loop 1 k
      (fun a j => <[j := a0 !!! j - lambda * a0 !!! (k - j)%nat]> a) a0 in
  let e := <[k := e !!! (k - 1)%nat * (fone - lambda * lambda)]> e in
  (a, e).

Definition levinson_durbin_simultaneous (ac : list T) (order : Z)
  : list T * list T :=
  let a := replicate (Z.to_nat (order + 1)) fzero in
  let e := replicate (Z.to_nat (order + 1)) fzero in
  let a := <[0%nat := fone]> a in
  let e := <[0%nat := ac !!! 0%nat]> e in
  for_loop 1 (Z.to_nat (order + 1)) (levinson_step_simultaneous ac) (a, e).

(** The coefficient vector of the reference recursion for a model. *)
Definition reference_coefficients (m : ARModel T) : list T :=
  let m := computeAutocorrelation m in
  store_coefficients (coefficients_ m)
    (fst (levinson_durbin_simultaneous (autocorrelation_ m) (order_ m)))
    (order_ m).

(** The best-so-far record of a sweep state. *)
Definition best (s : Sweep T) : T * Z * list T :=
  (bestMse s, bestOrder s, bestForecastedPrices s).

(** [v] is not below the best MSE so far. *)
Definition blocked (v : T) (s : Sweep T) : Prop := fltb v (bestMse s) = false.

End Vocabulary.

(** What the tie-break needs of [operator<]: no value is below itself, and
    the comparison is transitive.  Both hold of binary64, NaN included, and
    of the reals. *)
Class StrictLt (T : Type) `{Scalar T} := {
  fltb_irrefl : forall x : T, fltb x x = false;
  fltb_trans : forall x y z : T, fltb x y = true -> fltb y z = true -> fltb x z = true
}.

Section ExactVocabulary.
Local Open Scope R_scope.

(** The sum of a list of reals. *)
Definition Rsum (l : list R) : R := fold_right Rplus 0 l.



(** The run of the Levinson-Durbin loop of the code on the series
    [1, 2, 0, -2, 0, 2, 1] at order 6, in exact arithmetic: [ac6] is the
    autocorrelation vector, and [a6_k] and [e6_k] are the vectors [a] and
    [e] after pass [k]. *)
Definition ac6 : list R :=
  [2; 4 / 7; - 8 / 7; - 4 / 7; 4 / 7; 4 / 7; 1 / 7]%R.

Definition a6_0 : list R :=
  [1; 0; 0; 0; 0; 0; 0]%R.

Definition e6_0 : list R :=
  [2; 0; 0; 0; 0; 0; 0]%R.

Definition a6_1 : list R :=
  [1; 2 / 7; 0; 0; 0; 0; 0]%R.

Definition e6_1 : list R :=
  [2; 90 / 49; 0; 0; 0; 0; 0]%R.

Definition a6_2 : list R :=
  [1; 22 / 45; - 32 / 45; 0; 0; 0; 0]%R.

Definition e6_2 : list R :=
  [2; 90 / 49; 286 / 315; 0; 0; 0; 0]%R.

Definition a6_3 : list R :=
  [1; 114 / 143; - 972428 / 920205; 62 / 143; 0; 0; 0]%R.

Definition e6_3 : list R :=
  [2; 90 / 49; 286 / 315; 738 / 1001; 0; 0; 0]%R.

Definition a6_4 : list R :=
  [1; 356258554 / 339555645; - 3651055802956 / 2185040575575; 841234824634298
  / 806279972387175; - 1380062 / 2374515; 0; 0]%R.

Definition e6_4 : list R :=
  [2; 90 / 49; 286 / 315; 738 / 1001; 7467500722762 / 15295284029025; 0; 0]%R.

Definition a6_5 : list R :=
  [1; 158491074836476915618438 / 93564821702404890675981; -
  3141868502373060477608457969448 / 1110855363023429744917385121075;
  1279744305016351252507277646454931839729624402 /
  306097058049049553308324929172686026263297635; -
  1585760449982416778945547369558368202646 /
  644546482227001205105726704553742609045; 1528353185127374 /
  1377753883349589; 0]%R.

Definition e6_5 : list R :=
  [2; 90 / 49; 286 / 315; 738 / 1001; 7467500722762 / 15295284029025; -
  1923770089688423071025132602 / 17090082508052765306421309555; 0]%R.

Definition e6_6 : list R :=
  [2; 90 / 49; 286 / 315; 738 / 1001; 7467500722762 / 15295284029025; -
  1923770089688423071025132602 / 17090082508052765306421309555;
  603201288810908638593171025587460763995679760245092081036528326931068776791375205101302599
  /
  1174547874631326808032729094799019998485338522400856460264715385629754774007697496516000250]%R.

End ExactVocabulary.

Section ForecastVocabulary.
Context {T : Type} `{Scalar T}.
Local Open Scope scalar_scope.


End ForecastVocabulary.

Section SweepVocabulary.
Context {T : Type} `{Scalar T} `{Infinity T}.

(** The metric the sweep records for a candidate: the candidate's own when
    the fit succeeded, infinity otherwise. *)
Definition recorded (metric : ErrorMetrics T -> T)
    (c : option (list T * ErrorMetrics T)) : T :=
  match c with
  | Some (_, em) => metric em
  | None => finfinity
  end.

End SweepVocabulary.

Section GeneratorVocabulary.
Context {T : Type} `{Scalar T}.
Variables (fexp : T -> T) (fhalf : T) (draws : nat -> T).
Local Open Scope scalar_scope.

(** The factor the price is multiplied by in pass [i] of [generateGBM]. *)
Definition gbm_factor (mu sigma deltaT : T) (i : nat) : T :=
  fexp ((mu - fhalf * sigma * sigma) * deltaT + sigma * fsqrt deltaT * draws i).

End GeneratorVocabulary.

(** Two price series of 300 days: one alternating between 100 and 101, one
    constant. *)
Definition alternating_prices : list float :=
  map (fun i => of_int (100 + i mod 2)) (seqZ 0 300).

Definition constant_prices : list float := replicate 300 100%float.

(** * Properties *)

(** ** Integers and loops *)

Lemma to_int_id (z : Z) : int_range z -> to_int z = z.
Proof.
  unfold int_range, to_int. intros Hz.
  rewrite Z.mod_small by lia. lia.
Qed.

Lemma to_size_t_id (z : Z) : 0 <= z < 2 ^ 64 -> to_size_t z = z.
Proof. unfold to_size_t. intros Hz. now rewrite Z.mod_small. Qed.

Lemma to_size_t_order (z : Z) : int_range z -> 0 <= z -> to_size_t z = z.
Proof. unfold int_range. intros Hz Hz'. apply to_size_t_id. lia. Qed.

(** A negative [int] becomes a [size_t] of at least 2^63. *)
Lemma to_size_t_negative (z : Z) : int_range z -> z < 0 -> 2 ^ 63 <= to_size_t z.
Proof.
  unfold int_range, to_size_t. intros Hz Hneg.
  replace z with (z + 2 ^ 64 + (-1) * 2 ^ 64) by lia.
  rewrite Z.mod_add by lia. rewrite Z.mod_small by lia. lia.
Qed.

Section Loops.
Context {S : Type}.
Implicit Types (body : S -> nat -> S) (s : S).

Lemma for_loop_empty lo hi body s : (hi <= lo)%nat -> for_loop lo hi body s = s.
Proof. unfold for_loop. intros Hle. now replace (hi - lo)%nat with 0%nat by lia. Qed.

Lemma for_loop_last lo hi body s :
  (lo <= hi)%nat ->
  for_loop lo (Datatypes.S hi) body s = body (for_loop lo hi body s) hi.
Proof.
  unfold for_loop. intros Hle.
  replace (Datatypes.S hi - lo)%nat with (Datatypes.S (hi - lo)) by lia.
  rewrite seq_S, fold_left_app. simpl. do 2 f_equal. lia.
Qed.

Lemma for_loop_first lo hi body s :
  (lo < hi)%nat ->
  for_loop lo hi body s = for_loop (Datatypes.S lo) hi body (body s lo).
Proof.
  unfold for_loop. intros Hlt.
  replace (hi - lo)%nat with (Datatypes.S (hi - Datatypes.S lo)) by lia.
  reflexivity.
Qed.

(** Two bodies that agree on the indices of the loop compute the same. *)
Lemma for_loop_ext lo hi body body' s :
  (forall s' i, (lo <= i < hi)%nat -> body s' i = body' s' i) ->
  for_loop lo hi body s = for_loop lo hi body' s.
Proof.
  intros Hext. destruct (Nat.le_gt_cases hi lo) as [Hle|Hlt].
  { now rewrite !for_loop_empty. }
  induction hi as [|hi IH]; [lia|].
  destruct (Nat.eq_dec lo hi) as [->|Hne].
  - rewrite !for_loop_last, !for_loop_empty by lia. apply Hext. lia.
  - rewrite !for_loop_last by lia. rewrite IH by (intros; try apply Hext; lia).
    apply Hext. lia.
Qed.

(** A property kept by every pass holds when the loop ends. *)
Lemma for_loop_invariant (P : nat -> S -> Prop) lo hi body s :
  (lo <= hi)%nat ->
  P lo s ->
  (forall i s', (lo <= i < hi)%nat -> P i s' -> P (Datatypes.S i) (body s' i)) ->
  P hi (for_loop lo hi body s).
Proof.
  intros Hle H0 Hstep. induction hi as [|hi IH].
  - replace lo with 0%nat in * by lia. now rewrite for_loop_empty.
  - destruct (Nat.eq_dec lo (Datatypes.S hi)) as [->|Hne].
    + now rewrite for_loop_empty.
    + rewrite for_loop_last by lia. apply Hstep; [lia|].
      apply IH; [lia|]. intros. apply Hstep; [lia|assumption].
Qed.
End Loops.

(** ** The estimator's guards *)

Section Guards.
Context {T : Type} `{Scalar T}.
Local Open Scope scalar_scope.

Lemma sum_terms_for_loop (f : nat -> T) lo hi :
  for_loop lo hi (fun sum i => sum + f i) fzero = sum_terms (map f (seq lo (hi - lo))).
Proof.
  unfold for_loop, sum_terms. generalize fzero. generalize (seq lo (hi - lo)).
  intros l. induction l as [|i l IH]; intros acc; simpl; [reflexivity|apply IH].
Qed.

Lemma computeAutocorrelation_data (m : ARModel T) :
  data_ (computeAutocorrelation m) = data_ m
  /\ order_ (computeAutocorrelation m) = order_ m
  /\ coefficients_ (computeAutocorrelation m) = coefficients_ m.
Proof. now unfold computeAutocorrelation. Qed.

Lemma length_resize {A : Type} (v : list A) n x : length (resize v n x) = n.
Proof.
  unfold resize. rewrite length_app, length_take, length_replicate. lia.
Qed.

(** A loop that writes entry [i] in pass [i] keeps the length of the vector,
    has written the entries below its bound and leaves the others alone. *)
Lemma index_write_loop (f : nat -> T) (v : list T) hi :
  (hi <= length v)%nat ->
  let v' := for_loop 0 hi (fun ac lag => <[lag := f lag]> ac) v in
  length v' = length v
  /\ (forall lag, (lag < hi)%nat -> v' !!! lag = f lag)
  /\ (forall i, (hi <= i)%nat -> v' !!! i = v !!! i).
Proof.
  intros Hhi. cbv zeta.
  induction hi as [|hi IH].
  - rewrite for_loop_empty by lia. repeat split; intros; auto; lia.
  - rewrite for_loop_last by lia.
    destruct IH as (Hlen & Hlow & Hhigh); [lia|].
    repeat split.
    + now rewrite length_insert.
    + intros lag Hlag. destruct (Nat.eq_dec lag hi) as [->|Hne].
      * rewrite list_lookup_total_insert_eq; [reflexivity|lia].
      * rewrite list_lookup_total_insert_ne by lia. apply Hlow. lia.
    + intros i Hi. rewrite list_lookup_total_insert_ne by lia. apply Hhigh. lia.
Qed.

Lemma computeAutocorrelation_entries (m : ARModel T) :
  0 <= order_ m -> Z.of_nat (length (data_ m)) < 2 ^ 31 ->
  length (autocorrelation_ (computeAutocorrelation m)) = Z.to_nat (order_ m + 1)
  /\ forall lag, (Z.of_nat lag <= order_ m) ->
       autocorrelation_ (computeAutocorrelation m) !!! lag
       = sample_autocorrelation (data_ m) lag.
Proof.
  intros Horder Hlen. unfold computeAutocorrelation. simpl.
  rewrite to_int_id by (unfold int_range; lia).
  pose proof (index_write_loop
    (fun lag => lag_sum (data_ m) (Z.of_nat (length (data_ m))) lag
                / of_int (Z.of_nat (length (data_ m))))
    (resize (autocorrelation_ m) (Z.to_nat (order_ m + 1)) fzero)
    (Z.to_nat (order_ m + 1))) as Hloop.
  rewrite length_resize in Hloop. destruct Hloop as (Hl & Hlow & _); [lia|].
  split; [exact Hl|].
  intros lag Hlag. rewrite Hlow by lia.
  unfold sample_autocorrelation, lag_sum. rewrite Nat2Z.id.
  now rewrite sum_terms_for_loop.
Qed.

(** With a negative [order_] the cast makes the bound huge, and the fit
    reports that the data are not enough. *)
Lemma computeCoefficients_negative_order (m : ARModel T) :
  int_range (order_ m) -> order_ m < 0 -> Z.of_nat (length (data_ m)) < 2 ^ 63 ->
  computeCoefficients m
  = (false, m, ["Not enough data to compute AR coefficients."%string]).
Proof.
  intros Hint Hneg Hlen. unfold computeCoefficients.
  pose proof (to_size_t_negative _ Hint Hneg).
  destruct (Z.ltb_spec (Z.of_nat (length (data_ m))) (to_size_t (order_ m)));
    [reflexivity|lia].
Qed.

(** C2.  For a model order [0 <= order_ <= len(data_)], [computeCoefficients]
    returns [true] exactly when the lag-0 sample autocorrelation of the data
    does not compare equal to [0.0]; when it does, the call returns [false]
    with the zero-lag message, having computed the autocorrelations and
    nothing else.  When the series is shorter than the order, the call
    returns [false] with the not-enough-data message and leaves the object
    as it was: neither the autocorrelation nor the recursion has run. *)
Theorem computeCoefficients_succeeds_iff (m : ARModel T) :
  int_range (order_ m) -> Z.of_nat (length (data_ m)) < 2 ^ 31 ->
  (0 <= order_ m <= Z.of_nat (length (data_ m)) ->
     (fst (fst (computeCoefficients m)) = true
      <-> feqb (sample_autocorrelation (data_ m) 0) fzero = false)
     /\ (feqb (sample_autocorrelation (data_ m) 0) fzero = true ->
         computeCoefficients m
         = (false, computeAutocorrelation m,
            ["Zero lag autocorrelation. Cannot compute coefficients."%string])))
  /\ (Z.of_nat (length (data_ m)) < order_ m ->
      computeCoefficients m
      = (false, m, ["Not enough data to compute AR coefficients."%string])).
Proof.
  intros Hint Hlen. split.
  - intros Horder. unfold computeCoefficients.
    rewrite to_size_t_order by (tauto || lia).
    destruct (Z.ltb_spec (Z.of_nat (length (data_ m))) (order_ m)); [lia|].
    destruct (computeAutocorrelation_entries m) as [_ Hac]; [lia..|].
    rewrite (Hac 0%nat) by lia.
    destruct (feqb (sample_autocorrelation (data_ m) 0) fzero) eqn:Hzero.
    + split; [|reflexivity]. simpl. split; discriminate.
    + destruct (levinson_durbin _ _). simpl. split; [tauto|discriminate].
  - intros Hshort. unfold computeCoefficients.
    rewrite to_size_t_order by (tauto || lia).
    destruct (Z.ltb_spec (Z.of_nat (length (data_ m))) (order_ m)); [reflexivity|lia].
Qed.

(** C10.  When the series is shorter than the order, [forwardPredict]
    returns the value [0.0]; its result type is a plain [double], so nothing
    but the line on [std::cerr] tells this from a prediction of zero. *)
Theorem forwardPredict_insufficient_data (m : ARModel T) :
  int_range (order_ m) -> Z.of_nat (length (data_ m)) < order_ m ->
  forwardPredict m
  = (fzero, ["Insufficient data for one-step forward prediction."%string]).
Proof.
  intros Hint Hshort. unfold forwardPredict.
  rewrite to_size_t_order by (tauto || lia).
  destruct (Z.ltb_spec (Z.of_nat (length (data_ m))) (order_ m)); [reflexivity|lia].
Qed.

(** The multi-step forecast is empty in the same case. *)
Lemma forwardPredictSteps_insufficient_data (m : ARModel T) (k : Z) :
  int_range (order_ m) -> Z.of_nat (length (data_ m)) < order_ m ->
  forwardPredictSteps m k
  = ([], ["Insufficient data for multi-step prediction."%string]).
Proof.
  intros Hint Hshort. unfold forwardPredictSteps.
  rewrite to_size_t_order by (tauto || lia).
  destruct (Z.ltb_spec (Z.of_nat (length (data_ m))) (order_ m)); [reflexivity|lia].
Qed.

End Guards.

(** The fit of [1, 2, 2, 1] at order 3 succeeds: the lag-0 autocorrelation is
    2.5. *)
Lemma computeCoefficients_succeeds_iff_witness :
  let m := newARModel [1; 2; 2; 1]%float 3 in
  (0 <= order_ m <= Z.of_nat (length (data_ m)) ->
     (fst (fst (computeCoefficients m)) = true
      <-> feqb (sample_autocorrelation (data_ m) 0) fzero = false)
     /\ (feqb (sample_autocorrelation (data_ m) 0) fzero = true ->
         computeCoefficients m
         = (false, computeAutocorrelation m,
            ["Zero lag autocorrelation. Cannot compute coefficients."%string])))
  /\ (Z.of_nat (length (data_ m)) < order_ m ->
      computeCoefficients m
      = (false, m, ["Not enough data to compute AR coefficients."%string])).
Proof.
  apply (computeCoefficients_succeeds_iff (newARModel [1; 2; 2; 1]%float 3)).
  - unfold int_range. simpl. lia.
  - simpl. lia.
Defined.

(** One observation, order 2: the one-step forecast is [0.0]. *)
Lemma forwardPredict_insufficient_data_witness :
  forwardPredict (newARModel [1]%float 2)
  = (0%float, ["Insufficient data for one-step forward prediction."%string]).
Proof.
  refine (forwardPredict_insufficient_data (newARModel [1]%float 2) _ _).
  - unfold int_range. simpl. lia.
  - simpl. lia.
Defined.

(** A model that meets the precondition can return the same value: fitted on
    [1, 0, 0, 0] at order 1 the coefficient is 0 and so is the forecast. *)
Example forwardPredict_genuine_zero :
  let '(ok, m, _) := computeCoefficients (newARModel [1; 0; 0; 0]%float 1) in
  ok = true /\ forwardPredict m = (0%float, []).
Proof. vm_compute. split; reflexivity. Qed.


(** ** The autocorrelation vector *)

Section Autocorrelation.
Context {T : Type} `{Scalar T}.
Local Open Scope scalar_scope.

(** A call of [computeCoefficients] that passes the length guard leaves in
    the object the vector [computeAutocorrelation] wrote. *)
Lemma computeCoefficients_autocorrelation (m : ARModel T) :
  int_range (order_ m) -> 0 <= order_ m <= Z.of_nat (length (data_ m)) ->
  autocorrelation_ (snd (fst (computeCoefficients m)))
  = autocorrelation_ (computeAutocorrelation m).
Proof.
  intros Hint Horder. unfold computeCoefficients.
  rewrite to_size_t_order by (tauto || lia).
  destruct (Z.ltb_spec (Z.of_nat (length (data_ m))) (order_ m)); [lia|].
  destruct (feqb _ _); [reflexivity|].
  now destruct (levinson_durbin _ _).
Qed.

(** C8.  For a non-empty series of length [n] and an order [p <= n], the
    autocorrelation vector the fit leaves in the object has [p + 1] entries,
    and the entry at [lag] is the sum of [data[i] * data[i - lag]] for
    [i = lag .. n - 1], divided by [n]: the divisor is the full length at
    every lag and no mean is subtracted. *)
Theorem autocorrelation_vector (m : ARModel T) (lag : nat) :
  data_ m <> [] ->
  Z.of_nat (length (data_ m)) < 2 ^ 31 ->
  0 <= order_ m <= Z.of_nat (length (data_ m)) ->
  Z.of_nat lag <= order_ m ->
  let ac := autocorrelation_ (snd (fst (computeCoefficients m))) in
  (Z.of_nat (length ac) = order_ m + 1)%Z
  /\ ac !!! lag
     = sum_terms (map (fun i => data_ m !!! i * data_ m !!! (i - lag)%nat)
                    (seq lag (length (data_ m) - lag)))
       / of_int (Z.of_nat (length (data_ m))).
Proof.
  intros _ Hlen Horder Hlag. cbv zeta.
  rewrite computeCoefficients_autocorrelation by (unfold int_range; lia).
  destruct (computeAutocorrelation_entries m) as [Hl Hac]; [lia..|].
  split; [lia|]. now rewrite Hac.
Qed.

End Autocorrelation.

(** On [1, 2, 2, 1] at order 3: four entries, and the entry at lag 1 is
    (2*1 + 2*2 + 1*2) / 4 = 2. *)
Lemma autocorrelation_vector_witness :
  let m := newARModel [1; 2; 2; 1]%float 3 in
  let ac := autocorrelation_ (snd (fst (computeCoefficients m))) in
  (Z.of_nat (length ac) = 4
   /\ ac !!! 1%nat
      = sum_terms (map (fun i => data_ m !!! i * data_ m !!! (i - 1)%nat)%sc
                     (seq 1 (length (data_ m) - 1)))
        / of_int (Z.of_nat (length (data_ m))))%sc
  /\ ac = [2.5; 2; 1; 0.25]%float.
Proof.
  split; [|vm_compute; reflexivity].
  refine (autocorrelation_vector (newARModel [1; 2; 2; 1]%float 3) 1 _ _ _ _);
    simpl; (discriminate || lia).
Defined.

(** ** Error metrics *)

Section Metrics.
Context {T : Type} `{Scalar T}.
Local Open Scope scalar_scope.

(** An index loop over a vector is a fold over its elements. *)
Lemma for_loop_elements {S A : Type} (l : list A) (g : S -> A -> S)
    (body : S -> nat -> S) (s : S) :
  (forall s' i x, l !! i = Some x -> body s' i = g s' x) ->
  for_loop 0 (length l) body s = fold_left g l s.
Proof.
  induction l as [|x l IH] using rev_ind; intros Hbody.
  - reflexivity.
  - rewrite length_app. simpl. rewrite Nat.add_1_r, for_loop_last by lia.
    rewrite fold_left_app. simpl. rewrite IH.
    + apply Hbody. now rewrite lookup_app_r, Nat.sub_diag by lia.
    + intros s' i y Hy. apply Hbody. now apply lookup_app_l_Some.
Qed.

Lemma errors_loop (forecast actual : list T) :
  length forecast = length actual ->
  for_loop 0 (length forecast) (errors_step forecast actual) (fzero, fzero)
  = (sum_terms (map squared_error (zip forecast actual)),
     sum_terms (map percentage_error
                  (List.filter actual_nonzero (zip forecast actual)))).
Proof.
  intros Hlen.
  replace (length forecast) with (length (zip forecast actual))
    by (rewrite length_zip_with; lia).
  rewrite (for_loop_elements (zip forecast actual)
             (fun acc p => (fst acc + squared_error p,
                            if actual_nonzero p then snd acc + percentage_error p
                            else snd acc))).
  - unfold sum_terms. generalize fzero at 1 3. generalize fzero.
    induction (zip forecast actual) as [|[f a] l IH]; intros acc acc'; simpl.
    + reflexivity.
    + rewrite IH. destruct (actual_nonzero (f, a)); reflexivity.
  - intros [sq pct] i [f a] Hi.
    apply lookup_zip_with_Some in Hi as (f' & a' & Heq & Hf & Ha).
    injection Heq as <- <-.
    unfold errors_step.
    rewrite (list_lookup_total_correct _ _ _ Hf), (list_lookup_total_correct _ _ _ Ha).
    reflexivity.
Qed.

(** The metrics of two series of one non-zero length. *)
Lemma computeErrors_equal_lengths (forecast actual : list T) :
  length forecast = length actual -> forecast <> [] ->
  let n := of_int (Z.of_nat (length forecast)) in
  let pairs := zip forecast actual in
  let mse := sum_terms (map squared_error pairs) / n in
  computeErrors forecast actual
  = mkErrors mse (fsqrt mse)
      (sum_terms (map percentage_error (List.filter actual_nonzero pairs)) / n).
Proof.
  intros Hlen Hne. cbv zeta. unfold computeErrors.
  rewrite Hlen at 1. rewrite Nat.eqb_refl. simpl.
  destruct forecast as [|f forecast]; [congruence|].
  change (length (f :: forecast) =? 0)%nat with false. cbv iota.
  now rewrite errors_loop.
Qed.

(** C9.  [computeErrors] is a total function into the metrics record.  It
    returns the record of three zeros when the two series differ in length or
    the forecast is empty.  For two series of one non-zero length, [mse] is
    the sum of the squared differences divided by the length, and [rmse] is
    the square root of [mse]. *)
Theorem computeErrors_lengths (forecast actual : list T) :
  (length forecast <> length actual \/ forecast = [] ->
   computeErrors forecast actual = mkErrors fzero fzero fzero)
  /\ (length forecast = length actual -> forecast <> [] ->
      mse (computeErrors forecast actual)
      = sum_terms (map (fun '(f, a) => (f - a) * (f - a)) (zip forecast actual))
        / of_int (Z.of_nat (length forecast))
      /\ rmse (computeErrors forecast actual)
         = fsqrt (mse (computeErrors forecast actual))).
Proof.
  split.
  - intros Hbad. unfold computeErrors.
    destruct Hbad as [Hne| ->].
    + apply Nat.eqb_neq in Hne. now rewrite Hne.
    + simpl. now rewrite orb_true_r.
  - intros Hlen Hne. rewrite computeErrors_equal_lengths by assumption.
    simpl. split; reflexivity.
Qed.

End Metrics.


(** ** MAPE in exact arithmetic *)

Section ExactMetrics.
Local Open Scope R_scope.

Lemma sum_terms_Rsum (l : list R) : sum_terms l = Rsum l.
Proof.
  unfold sum_terms, Rsum. simpl.
  rewrite <- (Rplus_0_l (fold_right Rplus 0 l)). generalize 0 at 1 2.
  induction l as [|x l IH]; intros acc; simpl; [lra|].
  rewrite IH. lra.
Qed.

Lemma Rsum_nonneg (l : list R) : Forall (fun x => 0 <= x) l -> 0 <= Rsum l.
Proof. induction 1; simpl; lra. Qed.






(** In exact arithmetic the order of the additions does not matter: the
    entry at [lag] is the sum of the products, over [n]. *)
Lemma sample_autocorrelation_exact (data : list R) (lag : nat) :
  sample_autocorrelation data lag
  = Rsum (map (fun i => data !!! i * data !!! (i - lag)%nat) (seq lag (length data - lag)))
    / INR (length data).
Proof.
  unfold sample_autocorrelation. rewrite sum_terms_Rsum. simpl.
  now rewrite <- INR_IZR_INZ.
Qed.

End ExactMetrics.



(** The same two runs on binary64: a MAPE of 25 percent, and of 0 when every
    actual value is 0. *)
Example mape_binary64 :
  mape (computeErrors [1; 2]%float [2; 0]%float) = 25%float
  /\ mape (computeErrors [1; 2]%float [0; 0]%float) = 0%float.
Proof. vm_compute. split; reflexivity. Qed.

(** ** One-step and multi-step forecasts *)

Section Forecast.
Context {T : Type} `{Scalar T}.
Local Open Scope scalar_scope.

(** A prediction once appended stays the first entry of [predictions]. *)
Lemma predict_steps_keep_first (m : ARModel T) lo hi st x :
  fst st !! 0%nat = Some x ->
  fst (for_loop lo hi (predict_step m) st) !! 0%nat = Some x.
Proof.
  intros Hx. destruct (Nat.le_gt_cases lo hi) as [Hle|Hgt].
  - apply (for_loop_invariant (fun _ st' => fst st' !! 0%nat = Some x)); auto.
    intros i [predictions window] _ Hst. simpl in *.
    now apply lookup_app_l_Some.
  - now rewrite for_loop_empty by lia.
Qed.

(** The first sliding-window product reads the trailing observations. *)
Lemma first_window_dot (m : ARModel T) :
  (Z.to_nat (order_ m) <= length (data_ m))%nat ->
  for_loop 0 (Z.to_nat (order_ m))
    (fun pred i =>
       pred
       + coefficients_ m !!! i
         * drop (length (data_ m) - Z.to_nat (order_ m)) (data_ m)
             !!! (Z.to_nat (order_ m) - 1 - i)%nat)
    fzero
  = trailing_dot m.
Proof.
  intros Hp. unfold trailing_dot. apply for_loop_ext.
  intros s i Hi. rewrite lookup_total_drop. do 3 f_equal. lia.
Qed.

Lemma forecasts_agree (m : ARModel T) (k : Z) :
  int_range (order_ m) ->
  to_size_t (order_ m) <= Z.of_nat (length (data_ m)) ->
  1 <= k ->
  fst (forwardPredictSteps m k) !! 0%nat = Some (fst (forwardPredict m)).
Proof.
  intros Hint Hguard Hk.
  assert (Hp : (Z.to_nat (order_ m) <= length (data_ m))%nat).
  { destruct (Z.lt_ge_cases (order_ m) 0) as [Hneg|Hpos]; [lia|].
    rewrite to_size_t_order in Hguard by assumption. lia. }
  unfold forwardPredictSteps, forwardPredict.
  destruct (Z.ltb_spec (Z.of_nat (length (data_ m))) (to_size_t (order_ m))); [lia|].
  simpl. rewrite for_loop_first by lia.
  apply predict_steps_keep_first. simpl.
  f_equal. apply (first_window_dot m Hp).
Qed.

(** A successful fit keeps the data and the order, and has passed the guard. *)
Lemma computeCoefficients_success (m0 m : ARModel T) log :
  computeCoefficients m0 = (true, m, log) ->
  data_ m = data_ m0 /\ order_ m = order_ m0
  /\ to_size_t (order_ m0) <= Z.of_nat (length (data_ m0)).
Proof.
  unfold computeCoefficients.
  destruct (Z.ltb_spec (Z.of_nat (length (data_ m0))) (to_size_t (order_ m0)));
    [discriminate|].
  destruct (feqb _ _); [discriminate|].
  destruct (levinson_durbin _ _). intros [= <- _]. simpl. auto.
Qed.

(** Step 3 of the fit: the object holds [order_] coefficients, entry [i]
    being [a[i + 1]]. *)
Lemma computeCoefficients_coefficients (m0 m : ARModel T) log :
  computeCoefficients m0 = (true, m, log) ->
  length (coefficients_ m) = Z.to_nat (order_ m0)
  /\ forall i, (i < Z.to_nat (order_ m0))%nat ->
       coefficients_ m !!! i
       = fst (levinson_durbin (autocorrelation_ m) (order_ m0)) !!! (i + 1)%nat.
Proof.
  unfold computeCoefficients.
  destruct (Z.ltb_spec (Z.of_nat (length (data_ m0))) (to_size_t (order_ m0)));
    [discriminate|].
  destruct (feqb _ _); [discriminate|].
  destruct (levinson_durbin _ _) as [a e] eqn:Hld. intros [= <- _].
  change (order_ (computeAutocorrelation m0)) with (order_ m0) in *.
  cbn [coefficients_ autocorrelation_].
  change (for_loop 0 _ _ (resize (autocorrelation_ m0) _ _))
    with (autocorrelation_ (computeAutocorrelation m0)).
  rewrite Hld. cbn [fst].
  change (coefficients_ (computeAutocorrelation m0)) with (coefficients_ m0).
  destruct (index_write_loop (fun i => a !!! (i + 1)%nat)
              (resize (coefficients_ m0) (Z.to_nat (order_ m0)) fzero)
              (Z.to_nat (order_ m0))) as (Hl & Hlow & _).
  { now rewrite length_resize. }
  unfold store_coefficients. rewrite Hl, length_resize. auto.
Qed.

(** C5.  For a model a successful [computeCoefficients] has fitted at an
    order of at least 1 and any horizon [k >= 1], the first entry of
    [forwardPredictSteps(k)] is the value of [forwardPredict()]: the first
    window product pairs coefficient [i] with [data_[len - 1 - i]], as the
    one-step forecast does. *)
Theorem forwardPredictSteps_first (m0 m : ARModel T) (log : list string) (k : Z) :
  int_range (order_ m0) ->
  1 <= order_ m0 ->
  computeCoefficients m0 = (true, m, log) ->
  1 <= k ->
  fst (forwardPredictSteps m k) !! 0%nat = Some (fst (forwardPredict m)).
Proof.
  intros Hint Hpos Hfit Hk.
  destruct (computeCoefficients_success _ _ _ Hfit) as (Hdata & Horder & Hguard).
  apply forecasts_agree; rewrite ?Hdata, ?Horder; assumption.
Qed.

End Forecast.

(** The model fitted on [1, 2, 2, 1] at order 3, forecast over 3 steps. *)
Lemma forwardPredictSteps_first_witness :
  let m := snd (fst (computeCoefficients (newARModel [1; 2; 2; 1]%float 3))) in
  fst (forwardPredictSteps m 3) !! 0%nat = Some (fst (forwardPredict m)).
Proof.
  refine (forwardPredictSteps_first (newARModel [1; 2; 2; 1]%float 3) _ [] 3 _ _ _ _).
  - unfold int_range. simpl. lia.
  - simpl. lia.
  - vm_compute. reflexivity.
  - lia.
Defined.


(** ** Differencing and integration *)

Section Transform.
Context {T : Type} `{Scalar T}.
Local Open Scope scalar_scope.

(** Two vectors of one length with the same entries are equal. *)
Lemma vector_ext (v w : list T) :
  length v = length w ->
  (forall i, (i < length v)%nat -> v !!! i = w !!! i) ->
  v = w.
Proof.
  intros Hlen Hent. apply (list_eq_same_length _ _ (length v)); [congruence..|].
  intros i x y Hi Hx Hy.
  apply list_lookup_total_correct in Hx, Hy. rewrite <- Hx, <- Hy. now apply Hent.
Qed.

(** [difference] returns one entry less than it is given, and entry [i] is
    [levels[i+1] - levels[i]]. *)
Lemma difference_entries (levels : list T) :
  (1 <= length levels)%nat -> Z.of_nat (length levels) < 2 ^ 64 ->
  length (difference levels) = (length levels - 1)%nat
  /\ forall i, (i < length levels - 1)%nat ->
       difference levels !!! i = levels !!! (i + 1)%nat - levels !!! i.
Proof.
  intros Hlen Hsize. unfold difference.
  rewrite to_size_t_id by lia.
  replace (Z.to_nat (Z.of_nat (length levels) - 1)) with (length levels - 1)%nat by lia.
  apply (for_loop_invariant
    (fun n d => length d = n
                /\ forall i, (i < n)%nat ->
                     d !!! i = levels !!! (i + 1)%nat - levels !!! i)); [lia| |].
  - split; [reflexivity|]. intros; lia.
  - intros n d Hn [Hl Hd]. split.
    + rewrite length_app. simpl. lia.
    + intros i Hi. destruct (Nat.eq_dec i n) as [->|Hne].
      * now rewrite list_lookup_total_middle by (symmetry; exact Hl).
      * rewrite lookup_total_app_l by lia. apply Hd. lia.
Qed.

(** The reconstruction loop, when every forecast difference, added to the
    level before it, gives a known next level. *)
Lemma integrate_levels (levels diffs : list T) (k : nat) :
  (forall i, (i < k)%nat -> levels !!! i + diffs !!! i = levels !!! (i + 1)%nat) ->
  let out := integrate (levels !!! 0%nat) diffs (Z.of_nat k) in
  length out = k /\ forall i, (i < k)%nat -> out !!! i = levels !!! (i + 1)%nat.
Proof.
  intros Hstep. cbv zeta. unfold integrate. rewrite Nat2Z.id.
  pose proof (for_loop_invariant
    (fun n (st : T * list T) =>
       fst st = levels !!! n /\ length (snd st) = k
       /\ forall i, (i < n)%nat -> snd st !!! i = levels !!! (i + 1)%nat)
    0 k
    (fun '(currentPrice, forecastedPrices) i =>
       let currentPrice := currentPrice + diffs !!! i in
       (currentPrice, <[i := currentPrice]> forecastedPrices))
    (levels !!! 0%nat, replicate k fzero)) as Hinv.
  destruct Hinv as (_ & Hl & Hent); [lia| | |auto].
  - simpl. rewrite length_replicate. repeat split. intros; lia.
  - intros n [cur out] Hn (Hcur & Hl & Hent). simpl in *. subst cur.
    rewrite Hstep by lia. repeat split.
    + f_equal. lia.
    + now rewrite length_insert.
    + intros i Hi. destruct (Nat.eq_dec i n) as [->|Hne].
      * now rewrite list_lookup_total_insert_eq by lia.
      * rewrite list_lookup_total_insert_ne by lia. apply Hent. lia.
Qed.

Lemma length_running_sum (base : T) (diffs : list T) :
  length (running_sum base diffs) = length diffs.
Proof.
  revert base. induction diffs as [|d diffs IH]; intros base; simpl;
    [reflexivity|now rewrite IH].
Qed.

Lemma running_sum_step (base : T) (diffs : list T) (i : nat) :
  (i < length diffs)%nat ->
  (base :: running_sum base diffs) !!! i + diffs !!! i
  = (base :: running_sum base diffs) !!! (i + 1)%nat.
Proof.
  revert base i. induction diffs as [|d diffs IH]; intros base i Hi; simpl in Hi;
    [lia|].
  destruct i as [|i]; [reflexivity|].
  apply (IH (base + d) i). lia.
Qed.

(** The reconstruction loop computes the running sum of the forecast
    differences from the last training price. *)
Lemma integrate_running_sum (base : T) (diffs : list T) :
  integrate base diffs (Z.of_nat (length diffs)) = running_sum base diffs.
Proof.
  destruct (integrate_levels (base :: running_sum base diffs) diffs (length diffs))
    as [Hl Hent].
  { intros i Hi. now apply running_sum_step. }
  simpl in Hl, Hent. apply vector_ext.
  - now rewrite Hl, length_running_sum.
  - intros i Hi. rewrite Hl in Hi. rewrite Hent by exact Hi.
    now rewrite Nat.add_1_r.
Qed.

Lemma round_trip (levels : list T) (k : nat) :
  (2 <= length levels)%nat -> Z.of_nat (length levels) < 2 ^ 64 ->
  (k <= length levels - 1)%nat ->
  (forall i, (i < k)%nat ->
     levels !!! i + (levels !!! (i + 1)%nat - levels !!! i) = levels !!! (i + 1)%nat) ->
  integrate (levels !!! 0%nat) (take k (difference levels)) (Z.of_nat k)
  = take k (drop 1 levels).
Proof.
  intros Hlen Hsize Hk Hexact.
  destruct (difference_entries levels) as [Hdl Hd]; [lia..|].
  destruct (integrate_levels levels (take k (difference levels)) k) as [Hl Hent].
  { intros i Hi. rewrite lookup_total_take_lt by lia. rewrite Hd by lia. now apply Hexact. }
  apply vector_ext.
  - rewrite Hl, length_take, length_drop. lia.
  - intros i Hi. rewrite Hl in Hi. rewrite Hent by assumption.
    rewrite lookup_total_take_lt, lookup_total_drop by lia. f_equal. lia.
Qed.

(** C4, as the code has it.  For a level series of length at least 2 the
    differences are [levels[i+1] - levels[i]]; [integrate] returns the
    running sum of the differences it is given, from the base; and for every
    [k <= len - 1], integrating the first [k] differences from [levels[0]]
    gives back [levels[1..k+1]], provided that at each of these indices the
    sum [levels[i] + (levels[i+1] - levels[i])] is [levels[i+1]], that is,
    that the subtraction and the addition of that step lose nothing to
    rounding. *)
Theorem difference_integrate_round_trip (levels : list T) (k : nat) :
  (2 <= length levels)%nat -> Z.of_nat (length levels) < 2 ^ 64 ->
  (k <= length levels - 1)%nat ->
  (forall i, (i < k)%nat ->
     levels !!! i + (levels !!! (i + 1)%nat - levels !!! i) = levels !!! (i + 1)%nat) ->
  length (difference levels) = (length levels - 1)%nat
  /\ (forall i, (i < length levels - 1)%nat ->
        difference levels !!! i = levels !!! (i + 1)%nat - levels !!! i)
  /\ (forall base diffs,
        integrate base diffs (Z.of_nat (length diffs)) = running_sum base diffs)
  /\ integrate (levels !!! 0%nat) (take k (difference levels)) (Z.of_nat k)
     = take k (drop 1 levels).
Proof.
  intros Hlen Hsize Hk Hexact.
  destruct (difference_entries levels) as [Hdl Hd]; [lia..|].
  split; [exact Hdl|]. split; [exact Hd|]. split; [apply integrate_running_sum|].
  now apply round_trip.
Qed.

End Transform.

(** In exact arithmetic the condition of the round trip always holds. *)
Lemma round_trip_exact (levels : list R) (k : nat) :
  (2 <= length levels)%nat -> Z.of_nat (length levels) < 2 ^ 64 ->
  (k <= length levels - 1)%nat ->
  integrate (levels !!! 0%nat) (take k (difference levels)) (Z.of_nat k)
  = take k (drop 1 levels).
Proof.
  intros Hlen Hsize Hk. apply round_trip; try assumption.
  intros i _. simpl. lra.
Qed.

(** Comparing two binary64 numbers that are not equal. *)
Lemma float_neq (x y : float) : PrimFloat.Leibniz.eqb x y = false -> x <> y.
Proof.
  intros Hne Heq. apply FloatAxioms.Leibniz.eqb_spec in Heq. congruence.
Qed.

(** The scenario of the specification, on binary64: the differences of
    [100, 102, 101, 105] are [2, -1, 4], and integrating them from 100 gives
    [102, 101, 105]. *)
Lemma difference_integrate_round_trip_witness :
  let levels := [100; 102; 101; 105]%float in
  (length (difference levels) = 3%nat
   /\ (forall i, (i < 3)%nat ->
         difference levels !!! i = (levels !!! (i + 1)%nat - levels !!! i)%sc)
   /\ (forall (base : float) (diffs : list float),
         integrate base diffs (Z.of_nat (length diffs)) = running_sum base diffs)
   /\ integrate (levels !!! 0%nat) (take 3 (difference levels)) 3
      = take 3 (drop 1 levels))
  /\ difference levels = [2; -1; 4]%float
  /\ integrate 100%float [2; -1; 4]%float 3 = [102; 101; 105]%float.
Proof.
  split; [|vm_compute; split; reflexivity].
  refine (difference_integrate_round_trip [100; 102; 101; 105]%float 3 _ _ _ _);
    simpl; try lia.
  intros i Hi. destruct i as [|[|[|i]]]; [vm_compute; reflexivity..|lia].
Defined.

(** On binary64 the round trip is not exact for every series: from the
    levels [1e17, 1] the difference [1 - 1e17] rounds to [-1e17], and
    [1e17 + -1e17] is 0, not 1. *)
Lemma round_trip_rounds_binary64 :
  let levels := [1e17; 1]%float in
  difference levels = [-1e17]%float
  /\ integrate (levels !!! 0%nat) (take 1 (difference levels)) 1 = [0%float]
  /\ integrate (levels !!! 0%nat) (take 1 (difference levels)) 1
     <> take 1 (drop 1 levels).
Proof.
  cbv zeta. split; [vm_compute; reflexivity|]. split; [vm_compute; reflexivity|].
  intros Heq. apply (f_equal (fun l => l !!! 0%nat)) in Heq. revert Heq.
  apply float_neq. vm_compute. reflexivity.
Qed.


(** ** Order selection *)

Ltac compare_cases :=
  repeat match goal with
    | |- context [Z.compare ?a ?b] => destruct (Z.compare_spec a b)
    | |- context [Pos.compare ?a ?b] => destruct (Pos.compare_spec a b)
    end;
  simpl; intros; subst; try discriminate; try reflexivity; try lia.

Lemma SFltb_irrefl (x : spec_float) : SFltb x x = false.
Proof.
  unfold SFltb. destruct x as [s|s| |s m e]; simpl; try reflexivity.
  - now destruct s.
  - rewrite Z.compare_refl, Pos.compare_cont_refl. now destruct s.
Qed.

Lemma SFltb_trans (x y z : spec_float) :
  SFltb x y = true -> SFltb y z = true -> SFltb x z = true.
Proof.
  unfold SFltb.
  destruct x as [sx|sx| |sx mx ex], y as [sy|sy| |sy my ey], z as [sz|sz| |sz mz ez];
    simpl; try discriminate; try reflexivity;
    repeat match goal with s : bool |- _ => destruct s end;
    simpl; try discriminate; try reflexivity;
    change (Pos.compare_cont Eq) with Pos.compare; compare_cases.
Qed.

#[global] Instance binary64_lt : StrictLt float.
Proof.
  split; simpl.
  - intros x. rewrite ltb_spec. apply SFltb_irrefl.
  - intros x y z. rewrite !ltb_spec. apply SFltb_trans.
Qed.

#[global] Instance exact_lt : StrictLt R.
Proof.
  split; simpl; unfold Rltb.
  - intros x. destruct (Rlt_dec x x); [lra|reflexivity].
  - intros x y z. destruct (Rlt_dec x y), (Rlt_dec y z), (Rlt_dec x z);
      intros; try discriminate; try reflexivity; lra.
Qed.

Section Selection.
Context {T : Type} `{StrictLt T} `{Infinity T}.
Variables (diffData validPrices : list T) (lastTrainPrice : T) (validDays : Z).

Local Abbreviation step := (sweep_step diffData validPrices lastTrainPrice validDays).
Local Abbreviation cand := (candidate diffData validPrices lastTrainPrice validDays).

(** One pass either keeps the record, or the candidate fitted, its MSE is
    strictly below the best so far, and the record becomes the candidate's. *)
Lemma sweep_step_best (s : Sweep T) (order : Z) :
  best (step s order) = best s
  \/ exists forecast em log,
       cand order = (Some (forecast, em), log)
       /\ fltb (mse em) (bestMse s) = true
       /\ best (step s order) = (mse em, order, forecast).
Proof.
  unfold sweep_step.
  destruct (cand order) as [[[forecast em]|] log] eqn:Hc.
  - destruct (fltb (mse em) (bestMse s)) eqn:Hlt.
    + right. exists forecast, em, log. auto.
    + now left.
  - now left.
Qed.

(** Every pass appends the order it was given, whether the fit succeeded or
    not: the sweep visits the orders in the order of the loop and none stops
    it. *)
Lemma sweep_orders (l : list Z) (s : Sweep T) :
  orders (fold_left step l s) = orders s ++ map of_int l.
Proof.
  revert s. induction l as [|order l IH]; intros s; simpl.
  - now rewrite app_nil_r.
  - rewrite IH. unfold sweep_step.
    destruct (cand order) as [[[forecast em]|] log]; [destruct (fltb _ _)|];
      simpl; now rewrite <- app_assoc.
Qed.

Lemma blocked_step (v : T) (s : Sweep T) (order : Z) :
  blocked v s -> blocked v (step s order).
Proof.
  unfold blocked. intros Hb.
  destruct (sweep_step_best s order) as [Heq|(forecast & em & log & _ & Hlt & Heq)].
  - injection Heq as -> _ _. exact Hb.
  - injection Heq as -> _ _.
    destruct (fltb v (mse em)) eqn:Hv; [|reflexivity].
    rewrite (fltb_trans _ _ _ Hv Hlt) in Hb. discriminate.
Qed.

(** Once a candidate with MSE [v] has been scanned, [v] is blocked. *)
Lemma blocked_after (s : Sweep T) (p : Z) forecast em log :
  cand p = (Some (forecast, em), log) -> blocked (mse em) (step s p).
Proof.
  intros Hc. unfold blocked, sweep_step. rewrite Hc.
  destruct (fltb (mse em) (bestMse s)) eqn:Hlt; simpl.
  - apply fltb_irrefl.
  - exact Hlt.
Qed.

(** Orders other than [q] never make [q] the best order. *)
Lemma scan_without (q : Z) (l : list Z) (s : Sweep T) :
  q ∉ l -> bestOrder s <> q -> bestOrder (fold_left step l s) <> q.
Proof.
  revert s. induction l as [|order l IH]; intros s Hq Hs; simpl; [exact Hs|].
  apply not_elem_of_cons in Hq as [Hne Hq]. apply IH; [exact Hq|].
  destruct (sweep_step_best s order) as [Heq|(? & ? & ? & _ & _ & Heq)];
    injection Heq as _ -> _; congruence.
Qed.

(** While the MSE of [q] is blocked, [q] does not become the best order. *)
Lemma scan_blocked (q : Z) (v : T) (l : list Z) (s : Sweep T) :
  (forall forecast em log, cand q = (Some (forecast, em), log) -> mse em = v) ->
  blocked v s -> bestOrder s <> q -> bestOrder (fold_left step l s) <> q.
Proof.
  intros Hq. revert s. induction l as [|order l IH]; intros s Hb Hs; simpl; [exact Hs|].
  apply IH; [now apply blocked_step|].
  destruct (sweep_step_best s order) as [Heq|(forecast & em & log & Hc & Hlt & Heq)];
    injection Heq as _ -> _; [exact Hs|].
  intros ->. rewrite (Hq _ _ _ Hc) in Hlt. unfold blocked in Hb. congruence.
Qed.

(** Of two fitted candidates [p < q] with one MSE, the later one is not
    the order the sweep ends with. *)
Lemma later_tie_not_selected (bestOrder0 first maxOrder p q : Z)
    (forecast_p forecast_q : list T) (em_p em_q : ErrorMetrics T)
    (log_p log_q : list string) :
  bestOrder0 <= first -> first <= p -> p < q -> q <= maxOrder ->
  cand p = (Some (forecast_p, em_p), log_p) ->
  cand q = (Some (forecast_q, em_q), log_q) ->
  mse em_p = mse em_q ->
  bestOrder (select_order bestOrder0 first maxOrder diffData validPrices
               lastTrainPrice validDays) <> q.
Proof.
  intros Hbest Hp Hpq Hq Hcp Hcq Hmse. unfold select_order.
  replace (maxOrder - first + 1) with ((p - first) + (1 + (maxOrder - p))) by lia.
  rewrite seqZ_app by lia. rewrite (seqZ_cons (first + (p - first))) by lia.
  replace (first + (p - first)) with p by lia.
  rewrite fold_left_app. simpl.
  apply (scan_blocked q (mse em_p)).
  - intros forecast em log Hc. rewrite Hcq in Hc. injection Hc as _ <- _.
    symmetry. exact Hmse.
  - eapply blocked_after, Hcp.
  - destruct (sweep_step_best
                (fold_left step (seqZ first (p - first))
                   (mkSweep [] [] [] [] finfinity bestOrder0 [] [])) p)
      as [Heq|(? & ? & ? & _ & _ & Heq)]; injection Heq as _ -> _; [|lia].
    apply scan_without; [|simpl; lia].
    rewrite elem_of_seqZ. lia.
Qed.

(** The best MSE so far is the initial one, or that of a scanned candidate
    that fitted with an MSE below the initial one. *)
Lemma scan_best_mse (scanned : Z -> Prop) (b : T) (l : list Z) (s : Sweep T) :
  (forall o, o ∈ l -> scanned o) ->
  (bestMse s = b
   \/ exists o forecast em log,
        scanned o /\ cand o = (Some (forecast, em), log)
        /\ fltb (mse em) b = true /\ bestMse s = mse em) ->
  bestMse (fold_left step l s) = b
  \/ exists o forecast em log,
       scanned o /\ cand o = (Some (forecast, em), log)
       /\ fltb (mse em) b = true /\ bestMse (fold_left step l s) = mse em.
Proof.
  revert s. induction l as [|order l IH]; intros s Hl Hs; simpl; [exact Hs|].
  apply IH; [intros o Ho; apply Hl, elem_of_cons; now right|].
  destruct (sweep_step_best s order) as [Heq|(forecast & em & log & Hc & Hlt & Heq)].
  - injection Heq as -> _ _. exact Hs.
  - injection Heq as -> _ _. right. exists order, forecast, em, log.
    split; [apply Hl, elem_of_cons; now left|]. split; [exact Hc|].
    split; [|reflexivity].
    destruct Hs as [Hb|(o & f' & em' & log' & _ & _ & Hlt' & Hb)];
      rewrite Hb in Hlt; [exact Hlt|].
    eapply fltb_trans; eassumption.
Qed.

(** Candidates that are not strictly below the best MSE leave the record as
    it is. *)
Lemma scan_kept (l : list Z) (s : Sweep T) :
  (forall o forecast em log,
     o ∈ l -> cand o = (Some (forecast, em), log) ->
     fltb (mse em) (bestMse s) = false) ->
  best (fold_left step l s) = best s.
Proof.
  revert s. induction l as [|order l IH]; intros s Hl; simpl; [reflexivity|].
  assert (Hstep : best (step s order) = best s).
  { destruct (sweep_step_best s order) as [Heq|(forecast & em & log & Hc & Hlt & _)];
      [exact Heq|].
    rewrite (Hl order forecast em log) in Hlt;
      [discriminate|apply elem_of_cons; now left|exact Hc]. }
  rewrite IH; [exact Hstep|].
  intros o forecast em log Ho Hc.
  injection Hstep as -> _ _.
  eapply Hl; [apply elem_of_cons; right; exact Ho|exact Hc].
Qed.

(** The candidate that reaches the lowest MSE first is the one the sweep ends
    with. *)
Lemma first_lowest_selected (bestOrder0 first maxOrder p : Z)
    (forecast_p : list T) (em_p : ErrorMetrics T) (log_p : list string) :
  first <= p <= maxOrder ->
  cand p = (Some (forecast_p, em_p), log_p) ->
  fltb (mse em_p) finfinity = true ->
  (forall o forecast em log,
     first <= o < p -> cand o = (Some (forecast, em), log) ->
     fltb (mse em) finfinity = true -> fltb (mse em_p) (mse em) = true) ->
  (forall o forecast em log,
     p < o <= maxOrder -> cand o = (Some (forecast, em), log) ->
     fltb (mse em) (mse em_p) = false) ->
  best (select_order bestOrder0 first maxOrder diffData validPrices lastTrainPrice
          validDays)
  = (mse em_p, p, forecast_p).
Proof.
  intros Hp Hcp Hinf Hbefore Hafter. unfold select_order.
  replace (maxOrder - first + 1) with ((p - first) + (1 + (maxOrder - p))) by lia.
  rewrite seqZ_app by lia. rewrite (seqZ_cons (first + (p - first))) by lia.
  replace (first + (p - first)) with p by lia.
  rewrite fold_left_app. simpl.
  set (s := fold_left step (seqZ first (p - first)) _).
  assert (Hlt : fltb (mse em_p) (bestMse s) = true).
  { destruct (scan_best_mse (fun o => first <= o < p) finfinity
                (seqZ first (p - first))
                (mkSweep [] [] [] [] finfinity bestOrder0 [] []))
      as [Hb|(o & f & em & log & Ho & Hc & Hi & Hb)].
    - intros o Ho. apply elem_of_seqZ in Ho. lia.
    - now left.
    - fold s in Hb. rewrite Hb. exact Hinf.
    - fold s in Hb. rewrite Hb. eapply Hbefore; eassumption. }
  assert (Hsel : best (step s p) = (mse em_p, p, forecast_p)).
  { unfold sweep_step. rewrite Hcp, Hlt. reflexivity. }
  rewrite scan_kept; [exact Hsel|].
  intros o forecast em log Ho Hc. injection Hsel as -> _ _.
  apply elem_of_seqZ in Ho. eapply Hafter; [|exact Hc]. lia.
Qed.

(** C3.  The sweep visits the candidate orders from [first] to [maxOrder] in
    ascending order, and a pass replaces the best-so-far record only when
    the candidate's MSE is strictly below the best MSE so far.  So the order
    returned is the first one that reaches the lowest MSE: if the fitted
    candidate [p] has an MSE below the initial [+infinity], strictly below
    that of every earlier candidate that could be selected, and no later
    candidate is strictly below it (later candidates with the same MSE
    included), then [bestOrder] is [p], with the MSE and the forecast of
    [p]. *)
Theorem select_order_tie_break (bestOrder0 first maxOrder p : Z)
    (forecast_p : list T) (em_p : ErrorMetrics T) (log_p : list string) :
  first <= p <= maxOrder ->
  cand p = (Some (forecast_p, em_p), log_p) ->
  fltb (mse em_p) finfinity = true ->
  (forall o forecast em log,
     first <= o < p -> cand o = (Some (forecast, em), log) ->
     fltb (mse em) finfinity = true -> fltb (mse em_p) (mse em) = true) ->
  (forall o forecast em log,
     p < o <= maxOrder -> cand o = (Some (forecast, em), log) ->
     fltb (mse em) (mse em_p) = false) ->
  let result :=
    select_order bestOrder0 first maxOrder diffData validPrices lastTrainPrice
      validDays in
  orders result = map of_int (seqZ first (maxOrder - first + 1))
  /\ (forall s order,
        best (step s order) = best s
        \/ exists forecast em log,
             cand order = (Some (forecast, em), log)
             /\ fltb (mse em) (bestMse s) = true
             /\ best (step s order) = (mse em, order, forecast))
  /\ bestOrder result = p
  /\ bestMse result = mse em_p
  /\ bestForecastedPrices result = forecast_p.
Proof.
  intros Hp Hcp Hinf Hbefore Hafter. cbv zeta.
  split; [apply (sweep_orders _ (mkSweep [] [] [] [] finfinity bestOrder0 [] []))|].
  split; [apply sweep_step_best|].
  pose proof (first_lowest_selected bestOrder0 first maxOrder p forecast_p em_p log_p
                Hp Hcp Hinf Hbefore Hafter) as Hbest.
  injection Hbest as -> -> ->. auto.
Qed.

End Selection.

(** In [main] the candidates are the orders 20 to 80 and [bestOrder] starts
    at 20: of two of them with one MSE the program does not report the
    higher. *)
Lemma main_selection_tie_break {T : Type} `{StrictLt T} `{Infinity T}
    (fullPrices : list T) (p q : Z) forecast_p forecast_q em_p em_q log_p log_q :
  let trainPrices := take 240 fullPrices in
  let cand :=
    candidate (difference trainPrices) (drop 240 fullPrices)
      (trainPrices !!! (length trainPrices - 1)%nat) 60 in
  20 <= p -> p < q -> q <= 80 ->
  cand p = (Some (forecast_p, em_p), log_p) ->
  cand q = (Some (forecast_q, em_q), log_q) ->
  mse em_p = mse em_q ->
  bestOrder (main_selection fullPrices) <> q.
Proof.
  cbv zeta. intros Hp Hpq Hq Hcp Hcq Hmse. unfold main_selection.
  eapply (later_tie_not_selected _ _ _ _ 20 20 80 p q); try eassumption; lia.
Qed.

(** In [main] the candidates are the orders 20 to 80: the program reports
    the first order that reaches the lowest MSE. *)
Lemma main_selection_first_lowest {T : Type} `{StrictLt T} `{Infinity T}
    (fullPrices : list T) (p : Z) forecast_p em_p log_p :
  let trainPrices := take 240 fullPrices in
  let cand :=
    candidate (difference trainPrices) (drop 240 fullPrices)
      (trainPrices !!! (length trainPrices - 1)%nat) 60 in
  20 <= p <= 80 ->
  cand p = (Some (forecast_p, em_p), log_p) ->
  fltb (mse em_p) finfinity = true ->
  (forall o forecast em log,
     20 <= o < p -> cand o = (Some (forecast, em), log) ->
     fltb (mse em) finfinity = true -> fltb (mse em_p) (mse em) = true) ->
  (forall o forecast em log,
     p < o <= 80 -> cand o = (Some (forecast, em), log) ->
     fltb (mse em) (mse em_p) = false) ->
  best (main_selection fullPrices) = (mse em_p, p, forecast_p).
Proof.
  cbv zeta. intros Hp Hcp Hinf Hbefore Hafter. unfold main_selection.
  eapply (first_lowest_selected _ _ _ _ 20 20 80 p); eassumption.
Qed.

(** On the differenced series [1, 0, 1, 0] the orders 1, 2 and 3 fit with
    MSE 0.5, 0.25 and 0.25: the sweep, entered with [bestOrder = 1], returns
    order 2, the lower of the two orders tied at the lowest MSE. *)
Lemma select_order_tie_break_witness :
  let result := select_order 1 1 3 [1; 0; 1; 0]%float [1; 2]%float 1%float 2 in
  (orders result = map of_int (seqZ 1 (3 - 1 + 1))
   /\ (forall s order,
         best (sweep_step [1; 0; 1; 0]%float [1; 2]%float 1%float 2 s order) = best s
         \/ exists forecast em log,
              candidate [1; 0; 1; 0]%float [1; 2]%float 1%float 2 order
              = (Some (forecast, em), log)
              /\ fltb (mse em) (bestMse s) = true
              /\ best (sweep_step [1; 0; 1; 0]%float [1; 2]%float 1%float 2 s order)
                 = (mse em, order, forecast))
   /\ bestOrder result = 2
   /\ bestMse result = 0.25%float
   /\ bestForecastedPrices result = [1.5; 1.5]%float)
  /\ mses result = [0.5; 0.25; 0.25]%float.
Proof.
  split; [|vm_compute; reflexivity].
  refine (select_order_tie_break [1; 0; 1; 0]%float [1; 2]%float 1%float 2
            1 1 3 2 [1.5; 1.5]%float (mkErrors 0.25 0.5 37.5)%float [] _ _ _ _ _).
  - lia.
  - vm_compute. reflexivity.
  - vm_compute. reflexivity.
  - intros o forecast em log Ho Hc _. assert (o = 1) as -> by lia.
    vm_compute in Hc. injection Hc as _ <- _. vm_compute. reflexivity.
  - intros o forecast em log Ho Hc. assert (o = 3) as -> by lia.
    vm_compute in Hc. injection Hc as _ <- _. vm_compute. reflexivity.
Defined.


(** ** The Levinson-Durbin update *)

Section Recursion.
Context {T : Type} `{Scalar T}.
Local Open Scope scalar_scope.

(** Up to [k = 2] the loop of the code has at most one pass, which reads
    only the entry it writes: the two updates are the same. *)
Lemma levinson_step_small (ac : list T) (st : list T * list T) (k : nat) :
  (k <= 2)%nat -> levinson_step ac st k = levinson_step_simultaneous ac st k.
Proof.
  intros Hk. destruct st as [a e].
  destruct k as [|[|[|k]]]; [reflexivity..|lia].
Qed.

Lemma levinson_durbin_small (ac : list T) (order : Z) :
  order <= 2 -> levinson_durbin ac order = levinson_durbin_simultaneous ac order.
Proof.
  intros Horder. unfold levinson_durbin, levinson_durbin_simultaneous.
  apply for_loop_ext. intros st k Hk. apply levinson_step_small. lia.
Qed.

(** At [k = 3] the pass [j = 2] of the code reads [a[1]] after the pass
    [j = 1] has overwritten it; the reference recursion reads the old
    [a[1]]. *)
Lemma levinson_step_3 (ac e : list T) (a0 a1 a2 a3 : T) :
  let lambda :=
    (ac !!! 3%nat - (fzero + a1 * ac !!! 2%nat + a2 * ac !!! 1%nat)) / e !!! 2%nat in
  fst (levinson_step ac ([a0; a1; a2; a3], e) 3)
  = [a0; a1 - lambda * a2; a2 - lambda * (a1 - lambda * a2); lambda]
  /\ fst (levinson_step_simultaneous ac ([a0; a1; a2; a3], e) 3)
     = [a0; a1 - lambda * a2; a2 - lambda * a1; lambda].
Proof. split; reflexivity. Qed.

End Recursion.

(** In exact arithmetic the two updates of [a[2]] at [k = 3] differ by
    [lambda^2 * a[2]]. *)
Lemma levinson_step_3_gap (ac e : list R) (a0 a1 a2 a3 : R) :
  let lambda :=
    ((ac !!! 3%nat - (0 + a1 * ac !!! 2%nat + a2 * ac !!! 1%nat)) / e !!! 2%nat)%R in
  (fst (levinson_step ac ([a0; a1; a2; a3], e) 3) !!! 2%nat
   - fst (levinson_step_simultaneous ac ([a0; a1; a2; a3], e) 3) !!! 2%nat
   = lambda * lambda * a2)%R.
Proof.
  cbv zeta. destruct (levinson_step_3 ac e a0 a1 a2 a3) as [-> ->].
  simpl. ring.
Qed.

(** In exact arithmetic one pass does not raise the prediction error as long
    as the error before it is not negative. *)
Lemma prediction_error_step (ac a e : list R) (k : nat) :
  (k < length e)%nat ->
  (0 <= e !!! (k - 1)%nat)%R ->
  (snd (levinson_step ac (a, e) k) !!! k <= e !!! (k - 1)%nat)%R.
Proof.
  intros Hk He. unfold levinson_step. cbn [snd].
  rewrite list_lookup_total_insert_eq by exact Hk. simpl.
  match goal with |- (_ * (1 - ?l * ?l) <= _)%R => generalize l end.
  intros l. nra.
Qed.

(** Equations between vectors of explicit rationals. *)
Ltac exact_entries :=
  repeat match goal with
    | |- cons _ _ = cons _ _ => apply f_equal2; [try (field; repeat split; lra)|]
    end;
  try reflexivity.

Ltac exact_run :=
  cbv - [Rplus Rminus Rmult Rdiv Rinv Ropp IZR Req_dec_T].

(** The fit of [1, 2, 2, 1] at order 3 in exact arithmetic: the code stores
    5/3, -3/2, 1/2, the recursion with the simultaneous update 5/3, -4/3,
    1/2. *)
Lemma inplace_update_coefficients_exact :
  let m := newARModel [1; 2; 2; 1]%R 3 in
  computeCoefficients m
  = (true,
     mkModel [1; 2; 2; 1]%R 3 [5 / 3; - 3 / 2; 1 / 2]%R [5 / 2; 2; 1; 1 / 4]%R,
     [])
  /\ reference_coefficients m = [5 / 3; - 4 / 3; 1 / 2]%R.
Proof.
  cbv zeta. split.
  - exact_run. destruct (Req_dec_T _ _) as [Hz|_]; [exfalso; lra|].
    do 2 f_equal. f_equal; exact_entries.
  - exact_run. exact_entries.
Qed.

(** The passes of the loop on [1, 2, 0, -2, 0, 2, 1], one by one. *)
Lemma exact_passes :
  autocorrelation_ (computeAutocorrelation (newARModel [1; 2; 0; -2; 0; 2; 1]%R 6))
  = ac6
  /\ levinson_step ac6 (a6_0, e6_0) 1 = (a6_1, e6_1)
  /\ levinson_step ac6 (a6_1, e6_1) 2 = (a6_2, e6_2)
  /\ levinson_step ac6 (a6_2, e6_2) 3 = (a6_3, e6_3)
  /\ levinson_step ac6 (a6_3, e6_3) 4 = (a6_4, e6_4)
  /\ levinson_step ac6 (a6_4, e6_4) 5 = (a6_5, e6_5)
  /\ snd (levinson_step ac6 (a6_5, e6_5) 6) = e6_6.
Proof.
  split; [exact_run; exact_entries|].
  repeat (split; [exact_run; f_equal; exact_entries|]).
  exact_run. exact_entries.
Qed.

(** In exact arithmetic too the fit of [1, 2, 0, -2, 0, 2, 1] at order 6
    succeeds with a prediction error [e[5]] below 0 and [e[6]] above
    [e[5]]: the increase is not an effect of rounding. *)
Lemma prediction_error_not_monotone_exact :
  let m := newARModel [1; 2; 0; -2; 0; 2; 1]%R 6 in
  let e := snd (levinson_durbin (autocorrelation_ (computeAutocorrelation m)) 6) in
  fst (fst (computeCoefficients m)) = true
  /\ e = e6_6
  /\ (e !!! 5%nat < 0)%R
  /\ (e !!! 5%nat < e !!! 6%nat)%R.
Proof.
  cbv zeta.
  destruct exact_passes as (Hac & H1 & H2 & H3 & H4 & H5 & H6).
  assert (He : snd (levinson_durbin ac6 6) = e6_6).
  { change (levinson_durbin ac6 6)
      with (for_loop 1 7 (levinson_step ac6) (a6_0, e6_0)).
    rewrite for_loop_first, H1 by lia. rewrite for_loop_first, H2 by lia.
    rewrite for_loop_first, H3 by lia. rewrite for_loop_first, H4 by lia.
    rewrite for_loop_first, H5 by lia. rewrite for_loop_first by lia.
    rewrite for_loop_empty by lia. exact H6. }
  split.
  - unfold computeCoefficients.
    change (Z.of_nat (length (data_ (newARModel [1; 2; 0; -2; 0; 2; 1]%R 6)))
            <? to_size_t (order_ (newARModel [1; 2; 0; -2; 0; 2; 1]%R 6)))
      with false.
    cbv iota. rewrite Hac.
    replace (feqb (ac6 !!! 0%nat) fzero) with false.
    + now destruct (levinson_durbin _ _).
    + simpl. unfold Reqb. destruct (Req_dec_T 2 0); [lra|reflexivity].
  - rewrite Hac, He. split; [reflexivity|]. unfold e6_6. simpl. lra.
Qed.

Set Warnings "-inexact-float".

(** C1, on the code.  Fitted on the series [1, 2, 2, 1] at order 3 the call
    succeeds, and the coefficient vector it stores is not the one of the
    recursion with the simultaneous update: the second coefficient is -1.5
    up to rounding, where the reference recursion gives -4/3. *)
Theorem inplace_update_coefficients :
  let m := newARModel [1; 2; 2; 1]%float 3 in
  fst (fst (computeCoefficients m)) = true
  /\ getCoefficients (snd (fst (computeCoefficients m)))
     = [1.6666666666666679; -1.5000000000000033; 0.50000000000000144]%float
  /\ reference_coefficients m
     = [1.6666666666666679; -1.3333333333333357; 0.50000000000000144]%float
  /\ getCoefficients (snd (fst (computeCoefficients m))) <> reference_coefficients m.
Proof.
  cbv zeta. repeat (split; [vm_compute; reflexivity|]).
  intros Heq. apply (f_equal (fun l => l !!! 1%nat)) in Heq. revert Heq.
  apply float_neq. vm_compute. reflexivity.
Qed.

(** C6, on the code.  Fitted on the series [1, 2, 0, -2, 0, 2, 1] at order 6
    the call succeeds, and the prediction errors the loop computes are
    2, 1.84, 0.91, 0.74, 0.49, -0.11, 0.51 up to rounding: [e[5]] is negative
    and [e[6]] is above it. *)
Theorem prediction_error_not_monotone :
  let m := newARModel [1; 2; 0; -2; 0; 2; 1]%float 6 in
  let e := snd (levinson_durbin (autocorrelation_ (computeAutocorrelation m)) 6) in
  fst (fst (computeCoefficients m)) = true
  /\ e = [2; 1.8367346938775511; 0.90793650793650815; 0.73726273726273761;
          0.48822242912203256; -0.11256646003797047; 0.51356041063908664]%float
  /\ fltb (e !!! 5%nat) fzero = true
  /\ fltb (e !!! 5%nat) (e !!! 6%nat) = true.
Proof. vm_compute. repeat split; reflexivity. Qed.

(** On the same series the recursion with the simultaneous update has
    prediction errors 2, 1.84, 0.91, 0.74, 0.63, 0.44, 0.42: they do not
    increase. *)
Lemma prediction_error_reference :
  let m := newARModel [1; 2; 0; -2; 0; 2; 1]%float 6 in
  let e :=
    snd (levinson_durbin_simultaneous
           (autocorrelation_ (computeAutocorrelation m)) 6) in
  e = [2; 1.8367346938775511; 0.90793650793650815; 0.73726273726273761;
       0.6341463414634152; 0.44270015698587262; 0.42198581560283877]%float
  /\ forallb (fun k => PrimFloat.leb (e !!! k) (e !!! (k - 1)%nat)) (seq 1 6) = true.
Proof. vm_compute. split; reflexivity. Qed.


(** * Further properties of the code *)

(** ** The multi-step forecast *)

Section MultiStep.
Context {T : Type} `{Scalar T}.
Local Open Scope scalar_scope.

Lemma for_loop_split {S : Type} (lo mid hi : nat) (body : S -> nat -> S) (s : S) :
  (lo <= mid <= hi)%nat ->
  for_loop lo hi body s = for_loop mid hi body (for_loop lo mid body s).
Proof.
  intros Hm. unfold for_loop.
  replace (hi - lo)%nat with ((mid - lo) + (hi - mid))%nat by lia.
  rewrite seq_app, fold_left_app. do 3 f_equal. lia.
Qed.

(** The passes of the forecast loop only append to [predictions], one entry
    each. *)
Lemma predict_steps_append (m : ARModel T) lo hi st :
  (lo <= hi)%nat ->
  exists more,
    fst (for_loop lo hi (predict_step m) st) = fst st ++ more
    /\ length more = (hi - lo)%nat.
Proof.
  intros Hle.
  apply (for_loop_invariant
    (fun i st' => exists more, fst st' = fst st ++ more /\ length more = (i - lo)%nat));
    [exact Hle| |].
  - exists []. rewrite app_nil_r, Nat.sub_diag. auto.
  - intros i [predictions window] Hi (more & Hp & Hl). simpl in Hp. subst predictions.
    eexists (more ++ [_]). simpl. rewrite app_assoc. split; [reflexivity|].
    rewrite length_app. simpl. lia.
Qed.

(** For a model of order at least 1 that holds its [order_] coefficients,
    when the length guard passes [forwardPredictSteps(k)] with [0 <= k]
    returns [k] predictions and writes nothing to [std::cerr]. *)
Theorem forwardPredictSteps_length (m : ARModel T) (k : Z) :
  1 <= order_ m <= Z.of_nat (length (coefficients_ m)) ->
  to_size_t (order_ m) <= Z.of_nat (length (data_ m)) ->
  0 <= k ->
  Z.of_nat (length (fst (forwardPredictSteps m k))) = k
  /\ snd (forwardPredictSteps m k) = [].
Proof.
  intros _ Hguard Hk. unfold forwardPredictSteps.
  destruct (Z.ltb_spec (Z.of_nat (length (data_ m))) (to_size_t (order_ m))); [lia|].
  simpl. split; [|reflexivity].
  destruct (predict_steps_append m 0 (Z.to_nat k)
              ([], drop (length (data_ m) - Z.to_nat (order_ m)) (data_ m)))
    as (more & -> & Hl); [lia|].
  simpl. lia.
Qed.

(** For a model of order at least 1 that holds its [order_] coefficients, a
    longer horizon does not change the predictions of a shorter one:
    [forwardPredictSteps(k)] is the first [k] entries of
    [forwardPredictSteps(k')] for [0 <= k <= k']. *)
Theorem forwardPredictSteps_prefix (m : ARModel T) (k k' : Z) :
  1 <= order_ m <= Z.of_nat (length (coefficients_ m)) ->
  0 <= k <= k' ->
  fst (forwardPredictSteps m k)
  = take (Z.to_nat k) (fst (forwardPredictSteps m k')).
Proof.
  intros _ Hk. unfold forwardPredictSteps.
  destruct (Z.ltb_spec (Z.of_nat (length (data_ m))) (to_size_t (order_ m)));
    [simpl; now rewrite take_nil|].
  simpl. rewrite (for_loop_split 0 (Z.to_nat k) (Z.to_nat k')) by lia.
  set (st := for_loop 0 (Z.to_nat k) (predict_step m) _).
  destruct (predict_steps_append m 0 (Z.to_nat k)
              ([], drop (length (data_ m) - Z.to_nat (order_ m)) (data_ m)))
    as (more & Hst & Hl); [lia|].
  fold st in Hst. simpl in Hst.
  destruct (predict_steps_append m (Z.to_nat k) (Z.to_nat k') st) as (more' & -> & _);
    [lia|].
  rewrite take_app_le by (rewrite Hst; lia).
  rewrite take_ge by (rewrite Hst; lia). reflexivity.
Qed.




End MultiStep.

(** Coefficients 0.5 and 0.25 on the data [1, 2, 4]: the predictions are
    2.5, 2.25, 1.75. *)
Lemma forwardPredictSteps_length_witness :
  let m := mkModel [1; 2; 4]%float 2 [0.5; 0.25]%float [] in
  (Z.of_nat (length (fst (forwardPredictSteps m 3))) = 3
   /\ snd (forwardPredictSteps m 3) = [])
  /\ fst (forwardPredictSteps m 3) = [2.5; 2.25; 1.75]%float.
Proof.
  split; [|vm_compute; reflexivity].
  refine (forwardPredictSteps_length (mkModel [1; 2; 4]%float 2 [0.5; 0.25]%float [])
            3 _ _ _).
  - simpl. lia.
  - vm_compute. discriminate.
  - lia.
Defined.

Lemma forwardPredictSteps_prefix_witness :
  let m := mkModel [1; 2; 4]%float 2 [0.5; 0.25]%float [] in
  fst (forwardPredictSteps m 2) = take 2 (fst (forwardPredictSteps m 3)).
Proof.
  refine (forwardPredictSteps_prefix (mkModel [1; 2; 4]%float 2 [0.5; 0.25]%float [])
            2 3 _ _).
  - simpl. lia.
  - lia.
Defined.


(** ** The fitted model *)

Section Fitted.
Context {T : Type} `{Scalar T}.
Local Open Scope scalar_scope.

(** A loop that writes every entry of a vector forgets what the vector
    held. *)
Lemma index_write_loop_overwrites (f : nat -> T) (v w : list T) (hi : nat) :
  length v = hi -> length w = hi ->
  for_loop 0 hi (fun ac i => <[i := f i]> ac) v
  = for_loop 0 hi (fun ac i => <[i := f i]> ac) w.
Proof.
  intros Hv Hw.
  destruct (index_write_loop f v hi) as (Hlv & Hev & _); [lia|].
  destruct (index_write_loop f w hi) as (Hlw & Hew & _); [lia|].
  apply vector_ext; [congruence|].
  intros i Hi. rewrite Hev, Hew by lia. reflexivity.
Qed.

Lemma computeAutocorrelation_overwrites (m m' : ARModel T) :
  data_ m = data_ m' -> order_ m = order_ m' ->
  autocorrelation_ (computeAutocorrelation m)
  = autocorrelation_ (computeAutocorrelation m').
Proof.
  intros Hd Ho. unfold computeAutocorrelation. simpl. rewrite Hd, Ho.
  apply index_write_loop_overwrites; apply length_resize.
Qed.

Lemma store_coefficients_overwrites (c c' a : list T) (order : Z) :
  store_coefficients c a order = store_coefficients c' a order.
Proof.
  unfold store_coefficients.
  apply index_write_loop_overwrites; apply length_resize.
Qed.

(** Fitting a fitted model again changes nothing: the second call succeeds
    and leaves the same data, order, coefficients and autocorrelations. *)
Theorem computeCoefficients_again (m0 m : ARModel T) (log : list string) :
  computeCoefficients m0 = (true, m, log) ->
  computeCoefficients m = (true, m, []).
Proof.
  unfold computeCoefficients at 1.
  destruct (Z.ltb_spec (Z.of_nat (length (data_ m0))) (to_size_t (order_ m0)))
    as [|Hguard]; [discriminate|].
  destruct (feqb _ _) eqn:Hzero; [discriminate|].
  destruct (levinson_durbin _ _) as [a e] eqn:Hld. intros [= <- _].
  change (data_ (computeAutocorrelation m0)) with (data_ m0) in *.
  change (order_ (computeAutocorrelation m0)) with (order_ m0) in *.
  change (coefficients_ (computeAutocorrelation m0)) with (coefficients_ m0).
  set (m := mkModel _ _ _ _).
  assert (Hac : autocorrelation_ (computeAutocorrelation m)
                = autocorrelation_ (computeAutocorrelation m0)).
  { now apply computeAutocorrelation_overwrites. }
  unfold computeCoefficients.
  change (data_ m) with (data_ m0). change (order_ m) with (order_ m0).
  destruct (Z.ltb_spec (Z.of_nat (length (data_ m0))) (to_size_t (order_ m0))); [lia|].
  rewrite Hac, Hzero.
  change (order_ (computeAutocorrelation m)) with (order_ m0).
  change (data_ (computeAutocorrelation m)) with (data_ m0).
  rewrite Hld. unfold m. do 2 f_equal. f_equal.
  apply store_coefficients_overwrites.
Qed.

(** What a call of [computeCoefficients] leaves behind.  The data and the
    order are never changed.  After a success the object holds [order_]
    coefficients and [order_ + 1] autocorrelations, the first of which does
    not compare equal to 0, and nothing was written to [std::cerr].  After a
    failure the coefficients are the ones the object had, and one line was
    written. *)
Theorem computeCoefficients_outcome (m0 : ARModel T) :
  int_range (order_ m0) -> 0 <= order_ m0 ->
  let '(ok, m, log) := computeCoefficients m0 in
  data_ m = data_ m0 /\ order_ m = order_ m0
  /\ if ok
     then Z.of_nat (length (coefficients_ m)) = order_ m0
          /\ (Z.of_nat (length (autocorrelation_ m)) = order_ m0 + 1)%Z
          /\ feqb (autocorrelation_ m !!! 0%nat) fzero = false
          /\ order_ m0 <= Z.of_nat (length (data_ m0))
          /\ log = []
     else coefficients_ m = coefficients_ m0 /\ length log = 1%nat.
Proof.
  intros Hint Horder.
  destruct (computeCoefficients m0) as [[ok m] log] eqn:Hfit.
  destruct ok.
  - destruct (computeCoefficients_success _ _ _ Hfit) as (Hd & Ho & Hguard).
    destruct (computeCoefficients_coefficients _ _ _ Hfit) as [Hlc _].
    rewrite to_size_t_order in Hguard by assumption.
    revert Hfit. unfold computeCoefficients.
    destruct (Z.ltb_spec (Z.of_nat (length (data_ m0))) (to_size_t (order_ m0)));
      [discriminate|].
    destruct (feqb _ _) eqn:Hzero; [discriminate|].
    destruct (levinson_durbin _ _) as [a e]. intros [= <- <-].
    cbn [autocorrelation_ data_ order_ coefficients_] in *.
    repeat split; try assumption; try lia.
    unfold computeAutocorrelation. cbn [autocorrelation_].
    destruct (index_write_loop
                (fun lag => lag_sum (data_ m0) (to_int (Z.of_nat (length (data_ m0)))) lag
                            / of_int (to_int (Z.of_nat (length (data_ m0)))))
                (resize (autocorrelation_ m0) (Z.to_nat (order_ m0 + 1)) fzero)
                (Z.to_nat (order_ m0 + 1))) as (Hl & _ & _).
    { now rewrite length_resize. }
    rewrite Hl, length_resize. lia.
  - revert Hfit. unfold computeCoefficients.
    destruct (Z.ltb_spec (Z.of_nat (length (data_ m0))) (to_size_t (order_ m0))).
    + intros [= <- <-]. auto.
    + destruct (feqb _ _); [|destruct (levinson_durbin _ _); discriminate].
      intros [= <- <-]. auto.
Qed.

Lemma levinson_durbin_passes (ac : list T) (order : Z) :
  0 <= order ->
  let '(a, e) := levinson_durbin ac order in
  (Z.of_nat (length a) = order + 1)%Z /\ (Z.of_nat (length e) = order + 1)%Z
  /\ a !!! 0%nat = fone /\ e !!! 0%nat = ac !!! 0%nat
  /\ (1 <= order ->
      let lambda := (ac !!! 1%nat - fzero) / ac !!! 0%nat in
      e !!! 1%nat = ac !!! 0%nat * (fone - lambda * lambda))
  /\ forall k, (1 <= k)%nat -> Z.of_nat k <= order ->
       exists lambda, e !!! k = e !!! (k - 1)%nat * (fone - lambda * lambda).
Proof.
  intros Horder. unfold levinson_durbin.
  set (N := Z.to_nat (order + 1)).
  pose proof (for_loop_invariant
    (fun k (st : list T * list T) =>
       length (fst st) = N /\ length (snd st) = N
       /\ fst st !!! 0%nat = fone /\ snd st !!! 0%nat = ac !!! 0%nat
       /\ ((1 < k)%nat ->
           snd st !!! 1%nat
           = ac !!! 0%nat
             * (fone - (ac !!! 1%nat - fzero) / ac !!! 0%nat
                       * ((ac !!! 1%nat - fzero) / ac !!! 0%nat)))
       /\ forall j, (1 <= j < k)%nat ->
            exists lambda,
              snd st !!! j = snd st !!! (j - 1)%nat * (fone - lambda * lambda))
    1 N (levinson_step ac)
    (<[0%nat:=fone]> (replicate N fzero), <[0%nat:=ac !!! 0%nat]> (replicate N fzero)))
    as Hinv.
  destruct (for_loop 1 N (levinson_step ac) _) as [a e].
  destruct Hinv as (Hla & Hle & Ha0 & He0 & He1 & Hrec).
  - unfold N. lia.
  - cbn [fst snd]. rewrite !length_insert, !length_replicate.
    rewrite !list_lookup_total_insert_eq by (rewrite length_replicate; unfold N; lia).
    repeat split; intros; lia.
  - intros k [a' e'] Hk (Hla & Hle & Ha0 & He0 & He1 & Hrec).
    cbn [fst snd] in *. unfold levinson_step.
    set (lambda := (ac !!! k - _) / e' !!! (k - 1)%nat).
    cbn [fst snd].
    assert (Hinner :
      let a2 := for_loop 1 k
                  (fun a j => <[j := a !!! j - lambda * a !!! (k - j)%nat]> a)
                  (<[k := lambda]> a') in
      length a2 = N /\ a2 !!! 0%nat = fone).
    { cbv zeta.
      apply (for_loop_invariant (fun _ a2 => length a2 = N /\ a2 !!! 0%nat = fone));
        [lia| |].
      - rewrite length_insert, list_lookup_total_insert_ne by lia. auto.
      - intros j a2 Hj [Hl2 H0]. rewrite length_insert.
        rewrite list_lookup_total_insert_ne by lia. auto. }
    destruct Hinner as [Hl2 H02].
    split; [exact Hl2|]. split; [now rewrite length_insert|].
    split; [exact H02|]. split; [now rewrite list_lookup_total_insert_ne by lia|].
    split.
    + intros Hk1. destruct (Nat.eq_dec k 1%nat) as [->|Hne].
      * rewrite list_lookup_total_insert_eq by lia.
        unfold lambda. rewrite for_loop_empty by lia.
        change (1 - 1)%nat with 0%nat. now rewrite He0.
      * rewrite list_lookup_total_insert_ne by lia. apply He1. lia.
    + intros j Hj. destruct (Nat.eq_dec j k) as [->|Hne].
      * exists lambda. rewrite list_lookup_total_insert_eq by lia.
        now rewrite list_lookup_total_insert_ne by lia.
      * destruct (Hrec j) as [l Hl]; [lia|]. exists l.
        rewrite !list_lookup_total_insert_ne by lia. exact Hl.
  - cbn [fst snd] in *. unfold N in *.
    repeat split; try lia; try assumption.
    + intros H1. apply He1. lia.
    + intros k Hk1 Hk. apply Hrec. lia.
Qed.

(** The vectors of the recursion: [order + 1] entries each, [a[0]] stays 1
    and [e[0]] is the lag-0 autocorrelation; the first pass sets
    [e[1] = e[0] * (1 - lambda^2)] with [lambda = (ac[1] - 0) / ac[0]], and
    every [e[k]] is [e[k-1] * (1 - lambda^2)] for some [lambda]. *)
Theorem levinson_durbin_vectors (ac : list T) (order : Z) :
  0 <= order ->
  let '(a, e) := levinson_durbin ac order in
  (Z.of_nat (length a) = order + 1)%Z /\ (Z.of_nat (length e) = order + 1)%Z
  /\ a !!! 0%nat = fone /\ e !!! 0%nat = ac !!! 0%nat
  /\ (1 <= order ->
      let lambda := (ac !!! 1%nat - fzero) / ac !!! 0%nat in
      e !!! 1%nat = ac !!! 0%nat * (fone - lambda * lambda))
  /\ forall k, (1 <= k)%nat -> Z.of_nat k <= order ->
       exists lambda, e !!! k = e !!! (k - 1)%nat * (fone - lambda * lambda).
Proof. apply levinson_durbin_passes. Qed.

(** Up to order 2 the stored coefficients are those of the recursion with
    the simultaneous update. *)
Theorem small_order_coefficients (m0 m : ARModel T) (log : list string) :
  order_ m0 <= 2 ->
  computeCoefficients m0 = (true, m, log) ->
  getCoefficients m = reference_coefficients m0.
Proof.
  intros Horder. unfold computeCoefficients.
  destruct (Z.ltb_spec (Z.of_nat (length (data_ m0))) (to_size_t (order_ m0)));
    [discriminate|].
  destruct (feqb _ _); [discriminate|].
  destruct (levinson_durbin _ _) as [a e] eqn:Hld. intros [= <- _].
  unfold getCoefficients, reference_coefficients. cbn [coefficients_].
  rewrite <- levinson_durbin_small by exact Horder. now rewrite Hld.
Qed.

End Fitted.


(** ** The estimator in exact arithmetic *)

Section ExactEstimator.
Local Open Scope R_scope.

Lemma Rsum_app (l k : list R) : Rsum (l ++ k) = Rsum l + Rsum k.
Proof. induction l as [|x l IH]; simpl; [lra|rewrite IH; lra]. Qed.

Lemma Rsum_le (f g : nat -> R) (l : list nat) :
  (forall i, In i l -> f i <= g i) -> Rsum (map f l) <= Rsum (map g l).
Proof.
  induction l as [|i l IH]; intros Hfg; simpl; [lra|].
  pose proof (Hfg i (or_introl eq_refl)).
  assert (Rsum (map f l) <= Rsum (map g l)) by (apply IH; intros; apply Hfg; now right).
  lra.
Qed.

Lemma Rsum_abs (f : nat -> R) (l : list nat) :
  Rabs (Rsum (map f l)) <= Rsum (map (fun i => Rabs (f i)) l).
Proof.
  induction l as [|i l IH]; simpl; [rewrite Rabs_R0; lra|].
  eapply Rle_trans; [apply Rabs_triang|]. lra.
Qed.

Lemma Rsum_map_nonneg (f : nat -> R) (l : list nat) :
  (forall i, 0 <= f i) -> 0 <= Rsum (map f l).
Proof. intros Hf. induction l as [|i l IH]; simpl; [lra|]. specialize (Hf i). lra. Qed.

Lemma Rsum_half (f g : nat -> R) (l : list nat) :
  Rsum (map (fun i => (f i + g i) / 2) l) = (Rsum (map f l) + Rsum (map g l)) / 2.
Proof. induction l as [|i l IH]; simpl; [lra|rewrite IH; lra]. Qed.

(** A sum over a part of the indices of non-negative terms is at most the
    sum over all of them. *)
Lemma Rsum_range_le (f : nat -> R) (lo cnt n : nat) :
  (forall i, 0 <= f i) -> (lo + cnt <= n)%nat ->
  Rsum (map f (seq lo cnt)) <= Rsum (map f (seq 0 n)).
Proof.
  intros Hf Hn. replace n with (lo + (cnt + (n - lo - cnt)))%nat by lia.
  rewrite !seq_app, !map_app, !Rsum_app. simpl.
  pose proof (Rsum_map_nonneg f (seq 0 lo) Hf).
  pose proof (Rsum_map_nonneg f (seq (lo + cnt) (n - lo - cnt)) Hf). lra.
Qed.

Lemma Rsum_shift (f : nat -> R) (lag cnt : nat) :
  Rsum (map (fun i => f (i - lag)%nat) (seq lag cnt)) = Rsum (map f (seq 0 cnt)).
Proof.
  revert lag. induction cnt as [|cnt IH]; intros lag; [reflexivity|].
  rewrite !seq_S, !map_app, !Rsum_app, IH. simpl. do 3 f_equal. lia.
Qed.

(** The sum of the squares of a series, by index and by element. *)
Lemma Rsum_squares (data : list R) :
  Rsum (map (fun i => data !!! i * data !!! i) (seq 0 (length data)))
  = Rsum (map (fun x => x * x) data).
Proof.
  induction data as [|x data IH]; [reflexivity|].
  simpl. rewrite <- seq_shift, map_map. simpl. now rewrite IH.
Qed.

Lemma Rsum_squares_zero (data : list R) :
  Rsum (map (fun x => x * x) data) = 0 <-> Forall (fun x => x = 0) data.
Proof.
  induction data as [|x data IH]; simpl.
  - split; [constructor|reflexivity].
  - assert (0 <= Rsum (map (fun x => x * x) data)).
    { apply Rsum_nonneg, Forall_forall. intros y Hy.
      apply list_elem_of_In, in_map_iff in Hy as (z & <- & _). nra. }
    split.
    + intros Hs. assert (x * x = 0 /\ Rsum (map (fun x => x * x) data) = 0) as [Hx Hr]
        by (split; nra).
      constructor; [nra|now apply IH].
    + intros Hall. apply Forall_cons in Hall as [-> Hall].
      apply IH in Hall. lra.
Qed.

(** The lag-0 autocorrelation is the mean square of the series. *)
Lemma sample_autocorrelation_0 (data : list R) :
  sample_autocorrelation data 0
  = Rsum (map (fun x => x * x) data) / INR (length data).
Proof.
  rewrite sample_autocorrelation_exact, Nat.sub_0_r, <- Rsum_squares.
  do 2 f_equal. apply map_ext. intros i. now rewrite Nat.sub_0_r.
Qed.

Lemma INR_length_pos (data : list R) : data <> [] -> 0 < INR (length data).
Proof. intros Hne. apply lt_0_INR. destruct data; [congruence|simpl; lia]. Qed.

Lemma sample_autocorrelation_bound (data : list R) (lag : nat) :
  data <> [] ->
  Rabs (sample_autocorrelation data lag) <= sample_autocorrelation data 0.
Proof.
  intros Hne. pose proof (INR_length_pos data Hne) as Hn.
  rewrite sample_autocorrelation_0, sample_autocorrelation_exact.
  unfold Rdiv. rewrite Rabs_mult, (Rabs_pos_eq (/ INR (length data)))
    by (apply Rlt_le, Rinv_0_lt_compat, Hn).
  apply Rmult_le_compat_r; [apply Rlt_le, Rinv_0_lt_compat, Hn|].
  rewrite <- Rsum_squares.
  set (sq := fun i : nat => data !!! i * data !!! i).
  eapply Rle_trans; [apply Rsum_abs|].
  apply Rle_trans
    with (Rsum (map (fun i => (sq i + sq (i - lag)%nat) / 2)
                  (seq lag (length data - lag)))).
  { apply Rsum_le. intros i _. unfold sq.
    generalize (data !!! i) (data !!! (i - lag)%nat). intros x y.
    apply Rabs_le.
    pose proof (Rle_0_sqr (x - y)). pose proof (Rle_0_sqr (x + y)).
    unfold Rsqr in *. split; lra. }
  assert (Hsq : forall i, 0 <= sq i) by (intros i; unfold sq; nra).
  assert (H1 : Rsum (map sq (seq lag (length data - lag)))
               <= Rsum (map sq (seq 0 (length data)))).
  { destruct (Nat.le_gt_cases lag (length data)).
    - apply Rsum_range_le; [exact Hsq|lia].
    - replace (length data - lag)%nat with 0%nat by lia. simpl.
      now apply Rsum_map_nonneg. }
  assert (H2 : Rsum (map (fun i => sq (i - lag)%nat) (seq lag (length data - lag)))
               <= Rsum (map sq (seq 0 (length data)))).
  { rewrite Rsum_shift. apply Rsum_range_le; [exact Hsq|lia]. }
  rewrite (Rsum_half sq (fun i => sq (i - lag)%nat)). lra.
Qed.

Lemma autocorrelation_entry_bound (m : ARModel R) (lag : nat) :
  data_ m <> [] -> (Z.of_nat (length (data_ m)) < 2 ^ 31)%Z ->
  (Z.of_nat lag <= order_ m)%Z ->
  let ac := autocorrelation_ (computeAutocorrelation m) in
  Rabs (ac !!! lag) <= ac !!! 0%nat.
Proof.
  intros Hne Hlen Hlag. cbv zeta.
  destruct (computeAutocorrelation_entries m) as [_ Hac]; [lia..|].
  rewrite !Hac by lia. now apply sample_autocorrelation_bound.
Qed.

(** In exact arithmetic no autocorrelation the fit computes exceeds the
    lag-0 one in magnitude. *)
Theorem autocorrelation_bounded (m : ARModel R) (lag : nat) :
  data_ m <> [] -> (Z.of_nat (length (data_ m)) < 2 ^ 31)%Z ->
  (Z.of_nat lag <= order_ m)%Z ->
  let ac := autocorrelation_ (computeAutocorrelation m) in
  Rabs (ac !!! lag) <= ac !!! 0%nat.
Proof. apply autocorrelation_entry_bound. Qed.

(** In exact arithmetic the fit of a non-empty series of at least [order_]
    entries fails exactly when every entry is 0: a constant series that is
    not 0 is fitted. *)
Theorem degenerate_iff_all_zero (m : ARModel R) :
  data_ m <> [] -> (Z.of_nat (length (data_ m)) < 2 ^ 31)%Z ->
  (0 <= order_ m <= Z.of_nat (length (data_ m)))%Z ->
  fst (fst (computeCoefficients m)) = false <-> Forall (fun x => x = 0) (data_ m).
Proof.
  intros Hne Hlen Horder.
  pose proof (INR_length_pos _ Hne) as Hn.
  rewrite <- Rsum_squares_zero. unfold computeCoefficients.
  rewrite to_size_t_order by (unfold int_range; lia).
  destruct (Z.ltb_spec (Z.of_nat (length (data_ m))) (order_ m)); [lia|].
  destruct (computeAutocorrelation_entries m) as [_ Hac]; [lia..|].
  rewrite (Hac 0%nat) by lia. rewrite sample_autocorrelation_0.
  simpl. unfold Reqb.
  destruct (Req_dec_T _ 0) as [Hz|Hnz].
  - simpl. split; [intros _|reflexivity].
    apply (Rmult_eq_compat_r (INR (length (data_ m)))) in Hz.
    unfold Rdiv in Hz. rewrite Rmult_assoc, Rinv_l, Rmult_1_r, Rmult_0_l in Hz by lra.
    exact Hz.
  - destruct (levinson_durbin _ _). simpl. split; [discriminate|].
    intros Hs. rewrite Hs in Hnz. unfold Rdiv in Hnz. lra.
Qed.

(** In exact arithmetic, whatever the later passes do, the first pass of
    the recursion on the autocorrelations of a series does not raise the
    prediction error and leaves it non-negative, and a pass that starts from
    a non-negative error does not raise it: [e[2] <= e[1] <= e[0]]. *)
Theorem prediction_error_first_passes (m : ARModel R) :
  data_ m <> [] -> (Z.of_nat (length (data_ m)) < 2 ^ 31)%Z ->
  (1 <= order_ m)%Z ->
  let ac := autocorrelation_ (computeAutocorrelation m) in
  let e := snd (levinson_durbin ac (order_ m)) in
  ac !!! 0%nat <> 0 ->
  0 <= e !!! 1%nat <= e !!! 0%nat
  /\ (forall k, (1 <= k)%nat -> (Z.of_nat k <= order_ m)%Z ->
        0 <= e !!! (k - 1)%nat -> e !!! k <= e !!! (k - 1)%nat)
  /\ ((2 <= order_ m)%Z -> e !!! 2%nat <= e !!! 1%nat).
Proof.
  intros Hne Hlen Horder. cbv zeta. intros Hnz.
  pose proof (autocorrelation_entry_bound m 1 Hne Hlen ltac:(lia)) as Hb1.
  pose proof (autocorrelation_entry_bound m 0 Hne Hlen ltac:(lia)) as Hb0.
  cbv zeta in Hb1, Hb0. revert Hnz Hb1 Hb0.
  generalize (autocorrelation_ (computeAutocorrelation m)). intros ac Hnz Hb1 Hb0.
  pose proof (levinson_durbin_passes ac (order_ m)) as Hld.
  destruct (levinson_durbin _ _) as [a e]. cbn [snd].
  destruct Hld as (_ & _ & _ & He0 & He1 & Hrec); [lia|].
  specialize (He1 Horder). cbv zeta in He1. simpl in He1.
  set (r0 := ac !!! 0%nat) in *.
  set (r1 := ac !!! 1%nat) in *.
  assert (Hr0 : 0 < r0).
  { pose proof (Rabs_pos r0). lra. }
  assert (Hr1 : r1 * r1 <= r0 * r0).
  { pose proof (Rle_abs r1). pose proof (Rle_abs (- r1)) as Hm.
    rewrite Rabs_Ropp in Hm. nra. }
  assert (Hstep : forall k, (1 <= k)%nat -> (Z.of_nat k <= order_ m)%Z ->
            0 <= e !!! (k - 1)%nat -> e !!! k <= e !!! (k - 1)%nat).
  { intros k Hk1 Hk Hpos. destruct (Hrec k Hk1 Hk) as [l ->]. simpl. nra. }
  assert (He1' : e !!! 1%nat = (r0 * r0 - r1 * r1) / r0).
  { rewrite He1. field. lra. }
  assert (Hpos1 : 0 <= e !!! 1%nat).
  { rewrite He1'. apply Rmult_le_pos; [lra|]. apply Rlt_le, Rinv_0_lt_compat, Hr0. }
  split; [|split].
  - split; [exact Hpos1|]. rewrite He0. rewrite He1'.
    apply (Rmult_le_reg_r r0); [exact Hr0|].
    unfold Rdiv. rewrite Rmult_assoc, Rinv_l by lra. nra.
  - exact Hstep.
  - intros H2. apply (Hstep 2%nat); [lia|lia|exact Hpos1].
Qed.

End ExactEstimator.


(** ** The sweep and the rest of [main] *)

Section SweepRecords.
Context {T : Type} `{Scalar T} `{Infinity T}.
Variables (diffData validPrices : list T) (lastTrainPrice : T) (validDays : Z).
Local Open Scope scalar_scope.

Local Abbreviation step := (sweep_step diffData validPrices lastTrainPrice validDays).
Local Abbreviation cand := (candidate diffData validPrices lastTrainPrice validDays).

Lemma sweep_metrics_fold (l : list Z) (s : Sweep T) :
  let s' := fold_left step l s in
  mses s' = mses s ++ map (fun order => recorded mse (fst (cand order))) l
  /\ rmses s' = rmses s ++ map (fun order => recorded rmse (fst (cand order))) l
  /\ mapes s' = mapes s ++ map (fun order => recorded mape (fst (cand order))) l.
Proof.
  revert s. induction l as [|order l IH]; intros s; cbv zeta; simpl.
  - now rewrite !app_nil_r.
  - destruct (IH (step s order)) as (Hm & Hr & Hp). rewrite Hm, Hr, Hp.
    unfold sweep_step.
    destruct (cand order) as [[[forecast em]|] log]; [destruct (fltb _ _)|];
      simpl; now rewrite <- !app_assoc.
Qed.

(** The three metric vectors have one entry per candidate order, in the
    order of the scan: the candidate's metric when it was fitted, and
    infinity when the fit failed.  A failed fit does not end the sweep. *)
Theorem sweep_metrics (bestOrder0 first maxOrder : Z) :
  let result :=
    select_order bestOrder0 first maxOrder diffData validPrices lastTrainPrice
      validDays in
  let scanned := seqZ first (maxOrder - first + 1) in
  mses result = map (fun order => recorded mse (fst (cand order))) scanned
  /\ rmses result = map (fun order => recorded rmse (fst (cand order))) scanned
  /\ mapes result = map (fun order => recorded mape (fst (cand order))) scanned.
Proof.
  cbv zeta. unfold select_order.
  apply (sweep_metrics_fold _ (mkSweep [] [] [] [] finfinity bestOrder0 [] [])).
Qed.

(** The best-so-far record is either the initial one or that of a scanned
    order that was fitted. *)
Lemma sweep_best_fold (l : list Z) (s : Sweep T) :
  let s' := fold_left step l s in
  best s' = best s
  \/ exists em log,
       bestOrder s' ∈ l
       /\ cand (bestOrder s') = (Some (bestForecastedPrices s', em), log)
       /\ mse em = bestMse s'.
Proof.
  revert s. induction l as [|order l IH]; intros s; cbv zeta; simpl; [now left|].
  destruct (IH (step s order)) as [Heq|(em & log & Hin & Hc & Hm)].
  - rewrite Heq.
    destruct (sweep_step_best diffData validPrices lastTrainPrice validDays s order)
      as [Hs|(forecast & em & log & Hc & _ & Hs)]; [now left|].
    right. exists em, log.
    assert (Hb : best (fold_left step l (step s order)) = (mse em, order, forecast))
      by congruence.
    injection Hb as Hbm Hbo Hbf. rewrite Hbo, Hbf, Hbm.
    split; [apply list_elem_of_here|]. auto.
  - right. exists em, log. split; [now apply list_elem_of_further|]. auto.
Qed.

(** The record the sweep returns is consistent: either no candidate was
    ever selected, and it is the initial record (infinite MSE, [bestOrder0],
    no forecast), or [bestOrder] is one of the scanned orders, its fit
    succeeded, and [bestForecastedPrices] and [bestMse] are that
    candidate's forecast and MSE. *)
Theorem sweep_best_consistent (bestOrder0 first maxOrder : Z) :
  let result :=
    select_order bestOrder0 first maxOrder diffData validPrices lastTrainPrice
      validDays in
  (bestMse result = finfinity /\ bestOrder result = bestOrder0
   /\ bestForecastedPrices result = [])
  \/ exists em log,
       first <= bestOrder result <= maxOrder
       /\ cand (bestOrder result) = (Some (bestForecastedPrices result, em), log)
       /\ mse em = bestMse result.
Proof.
  cbv zeta. unfold select_order.
  destruct (sweep_best_fold (seqZ first (maxOrder - first + 1))
              (mkSweep [] [] [] [] finfinity bestOrder0 [] []))
    as [Heq|(em & log & Hin & Hc & Hm)].
  - left. injection Heq as -> -> ->. auto.
  - right. exists em, log. apply elem_of_seqZ in Hin. split; [lia|auto].
Qed.

Lemma integrate_length (base : T) (diffs : list T) (k : Z) :
  length (integrate base diffs k) = Z.to_nat k.
Proof.
  unfold integrate.
  apply (for_loop_invariant
    (fun _ (st : T * list T) => length (snd st) = Z.to_nat k)); [lia| |].
  - simpl. apply length_replicate.
  - intros i [cur out] _ Hl. simpl in *. now rewrite length_insert.
Qed.

(** A fitted candidate carries a forecast of [validDays] levels and the
    metrics of that forecast against the validation series; so when the
    validation series has another length, all its metrics are 0. *)
Theorem candidate_forecast (order : Z) (forecast : list T) (em : ErrorMetrics T)
    (log : list string) :
  cand order = (Some (forecast, em), log) ->
  length forecast = Z.to_nat validDays
  /\ em = computeErrors forecast validPrices
  /\ (length validPrices <> Z.to_nat validDays -> em = mkErrors fzero fzero fzero).
Proof.
  unfold candidate.
  destruct (computeCoefficients _) as [[[|] model] log1]; [|discriminate].
  destruct (forwardPredictSteps model validDays) as [forecastedDiff log2].
  intros [= <- <- _].
  split; [apply integrate_length|]. split; [reflexivity|].
  intros Hne. unfold computeErrors. rewrite integrate_length.
  destruct (Nat.eqb_spec (Z.to_nat validDays) (length validPrices)); [congruence|].
  reflexivity.
Qed.

End SweepRecords.

Section SweepMinimal.
Context {T : Type} `{StrictLt T} `{Infinity T}.
Variables (diffData validPrices : list T) (lastTrainPrice : T) (validDays : Z).

Local Abbreviation step := (sweep_step diffData validPrices lastTrainPrice validDays).
Local Abbreviation cand := (candidate diffData validPrices lastTrainPrice validDays).

Lemma blocked_fold (v : T) (l : list Z) (s : Sweep T) :
  blocked v s -> blocked v (fold_left step l s).
Proof.
  revert s. induction l as [|order l IH]; intros s Hb; simpl; [exact Hb|].
  apply IH. now apply blocked_step.
Qed.

(** No scanned candidate has an MSE strictly below the best MSE the sweep
    returns. *)
Theorem sweep_best_minimal (bestOrder0 first maxOrder p : Z)
    (forecast : list T) (em : ErrorMetrics T) (log : list string) :
  first <= p <= maxOrder ->
  cand p = (Some (forecast, em), log) ->
  fltb (mse em)
    (bestMse (select_order bestOrder0 first maxOrder diffData validPrices
                lastTrainPrice validDays))
  = false.
Proof.
  intros Hp Hc. unfold select_order.
  replace (maxOrder - first + 1) with ((p - first) + (1 + (maxOrder - p))) by lia.
  rewrite seqZ_app by lia. rewrite (seqZ_cons (first + (p - first))) by lia.
  rewrite fold_left_app. simpl.
  apply blocked_fold. eapply blocked_after.
  replace (first + (p - first)) with p by lia. exact Hc.
Qed.

End SweepMinimal.

Section FitAndOrder.
Context {T : Type} `{Scalar T}.
Local Open Scope scalar_scope.

(** When a fit succeeds, for a model order that is not negative. *)
Lemma fit_succeeds (m : ARModel T) :
  int_range (order_ m) -> 0 <= order_ m -> Z.of_nat (length (data_ m)) < 2 ^ 31 ->
  fst (fst (computeCoefficients m)) = true
  <-> order_ m <= Z.of_nat (length (data_ m))
      /\ feqb (sample_autocorrelation (data_ m) 0) fzero = false.
Proof.
  intros Hint Horder Hlen. unfold computeCoefficients.
  rewrite to_size_t_order by assumption.
  destruct (Z.ltb_spec (Z.of_nat (length (data_ m))) (order_ m)).
  - simpl. split; [discriminate|lia].
  - destruct (computeAutocorrelation_entries m) as [_ Hac]; [lia..|].
    rewrite (Hac 0%nat) by lia.
    destruct (feqb _ _).
    + simpl. split; [discriminate|intros [_ ?]; discriminate].
    + destruct (levinson_durbin _ _). simpl. split; auto.
Qed.

Lemma fit_smaller_order (data : list T) (p q : Z) :
  int_range p -> 0 <= q <= p -> Z.of_nat (length data) < 2 ^ 31 ->
  fst (fst (computeCoefficients (newARModel data p))) = true ->
  fst (fst (computeCoefficients (newARModel data q))) = true.
Proof.
  intros Hint Hq Hlen Hp.
  apply fit_succeeds in Hp as [Hpl Hz]; simpl; try assumption; try lia.
  simpl in Hpl, Hz.
  apply fit_succeeds; simpl; try lia.
  - unfold int_range in *. lia.
  - split; [lia|exact Hz].
Qed.

(** The order enters the success of a fit only through the length guard: if
    a series is fitted at order [p], it is fitted at every order from 0 to
    [p]. *)
Theorem fit_order_monotone (data : list T) (p q : Z) :
  int_range p -> 0 <= q <= p -> Z.of_nat (length data) < 2 ^ 31 ->
  fst (fst (computeCoefficients (newARModel data p))) = true ->
  fst (fst (computeCoefficients (newARModel data q))) = true.
Proof. apply fit_smaller_order. Qed.

Lemma forwardPredictSteps_count (m : ARModel T) (k : Z) :
  to_size_t (order_ m) <= Z.of_nat (length (data_ m)) ->
  length (fst (forwardPredictSteps m k)) = Z.to_nat k.
Proof.
  intros Hguard. unfold forwardPredictSteps.
  destruct (Z.ltb_spec (Z.of_nat (length (data_ m))) (to_size_t (order_ m))); [lia|].
  simpl.
  destruct (predict_steps_append m 0 (Z.to_nat k)
              ([], drop (length (data_ m) - Z.to_nat (order_ m)) (data_ m)))
    as (more & -> & Hl); [lia|].
  simpl. lia.
Qed.

(** The two reconstruction loops of [main] agree on a forecast of
    [validDays] differences. *)
Lemma integrate_all_integrate (base : T) (diffs : list T) (validDays : Z) :
  Z.of_nat (length diffs) = validDays ->
  integrate_all base diffs = integrate base diffs validDays.
Proof. intros <-. unfold integrate_all, integrate. now rewrite Nat2Z.id. Qed.

End FitAndOrder.

Section MainProgram.
Context {T : Type} `{Scalar T} `{Infinity T}.
Local Open Scope scalar_scope.

Ltac skip_writes := repeat (rewrite lookup_insert_ne by discriminate).

(** The sweep of [main], with its arguments spelled out. *)
Lemma main_selection_unfold (fullPrices : list T) :
  main_selection fullPrices
  = select_order 20 20 80 (difference (take (Z.to_nat 240) fullPrices))
      (drop (Z.to_nat 240) fullPrices)
      (take (Z.to_nat 240) fullPrices
         !!! (length (take (Z.to_nat 240) fullPrices) - 1)%nat)
      (300 - 240)%Z.
Proof. unfold main_selection. cbv zeta. reflexivity. Qed.

(** A sweep that has kept a forecast has kept the one of its best order. *)
Lemma select_order_kept (diffData validPrices : list T) (lastTrainPrice : T)
    (validDays bestOrder0 first maxOrder : Z) :
  let result :=
    select_order bestOrder0 first maxOrder diffData validPrices lastTrainPrice
      validDays in
  bestForecastedPrices result <> [] ->
  exists em log,
    candidate diffData validPrices lastTrainPrice validDays (bestOrder result)
    = (Some (bestForecastedPrices result, em), log)
    /\ mse em = bestMse result.
Proof.
  cbv zeta. unfold select_order. intros Hkept.
  destruct (sweep_best_fold diffData validPrices lastTrainPrice validDays
              (seqZ first (maxOrder - first + 1))
              (mkSweep [] [] [] [] finfinity bestOrder0 [] []))
    as [Heq|(em & log & _ & Hc & Hm)].
  - exfalso. apply Hkept. injection Heq as _ _ Hf. exact Hf.
  - exists em, log. auto.
Qed.

(** When the sweep has kept a forecast, [main] ends with exit code 0, and
    the levels it writes to [forecasted_prices.txt] and the MSE it writes to
    [validation_mse.txt], both recomputed from a second fit at the best
    order, are the forecast and the MSE the sweep kept. *)
Theorem main_writes_best_forecast (fullPrices : list T) (fs : gmap string (list T)) :
  let sweep := main_selection fullPrices in
  bestForecastedPrices sweep <> [] ->
  fst (main fullPrices fs) = 0
  /\ snd (main fullPrices fs) !! "forecasted_prices.txt"%string
     = Some (bestForecastedPrices sweep)
  /\ snd (main fullPrices fs) !! "validation_mse.txt"%string = Some [bestMse sweep].
Proof.
  cbv zeta. unfold main. cbv zeta. rewrite !main_selection_unfold.
  set (trainPrices := take (Z.to_nat 240) fullPrices).
  set (diffData := difference trainPrices).
  set (validPrices := drop (Z.to_nat 240) fullPrices).
  set (lastTrainPrice := trainPrices !!! (length trainPrices - 1)%nat).
  clearbody lastTrainPrice validPrices diffData trainPrices.
  pose proof (select_order_kept diffData validPrices lastTrainPrice (300 - 240)%Z
                20 20 80) as Hsel.
  cbv zeta in Hsel.
  set (sweep := select_order 20 20 80 diffData validPrices lastTrainPrice (300 - 240)%Z)
    in *.
  clearbody sweep.
  intros Hkept. destruct (Hsel Hkept) as (em & log & Hc & Hm). clear Hsel.
  revert Hc. unfold candidate.
  destruct (computeCoefficients (newARModel diffData (bestOrder sweep)))
    as [[[|] bestModel] log1] eqn:Hfit; [|discriminate].
  destruct (computeCoefficients_success _ _ _ Hfit) as (Hd & Ho & Hguard).
  assert (Hcount : Z.of_nat (length (fst (forwardPredictSteps bestModel (300 - 240)%Z)))
                   = (300 - 240)%Z).
  { rewrite forwardPredictSteps_count by (rewrite Hd, Ho; exact Hguard). lia. }
  destruct (forwardPredictSteps bestModel (300 - 240)%Z) as [forecastedDiff log2].
  cbn [fst] in Hcount. intros [= Hf Hem]. rewrite Hf in Hem.
  rewrite (integrate_all_integrate lastTrainPrice forecastedDiff (300 - 240)%Z Hcount).
  rewrite Hf. cbn [fst snd]. unfold writeSingleValueToFile, writeVectorToFile.
  split; [reflexivity|]. split.
  - skip_writes. apply lookup_insert_eq.
  - skip_writes. rewrite lookup_insert_eq. now rewrite Hem, Hm.
Qed.

Lemma select_order_cases (diffData validPrices : list T) (lastTrainPrice : T)
    (validDays bestOrder0 first maxOrder : Z) :
  let result :=
    select_order bestOrder0 first maxOrder diffData validPrices lastTrainPrice
      validDays in
  (bestMse result = finfinity /\ bestOrder result = bestOrder0
   /\ bestForecastedPrices result = [])
  \/ exists em log,
       first <= bestOrder result <= maxOrder
       /\ candidate diffData validPrices lastTrainPrice validDays (bestOrder result)
          = (Some (bestForecastedPrices result, em), log)
       /\ mse em = bestMse result.
Proof.
  cbv zeta. unfold select_order.
  destruct (sweep_best_fold diffData validPrices lastTrainPrice validDays
              (seqZ first (maxOrder - first + 1))
              (mkSweep [] [] [] [] finfinity bestOrder0 [] []))
    as [Heq|(em & log & Hin & Hc & Hm)].
  - left. injection Heq as -> -> ->. auto.
  - right. exists em, log. apply elem_of_seqZ in Hin. split; [lia|auto].
Qed.

Lemma select_order_mses (diffData validPrices : list T) (lastTrainPrice : T)
    (validDays bestOrder0 first maxOrder : Z) :
  mses (select_order bestOrder0 first maxOrder diffData validPrices lastTrainPrice
          validDays)
  = map (fun order =>
           recorded mse
             (fst (candidate diffData validPrices lastTrainPrice validDays order)))
      (seqZ first (maxOrder - first + 1)).
Proof.
  unfold select_order.
  apply (sweep_metrics_fold diffData validPrices lastTrainPrice validDays _
           (mkSweep [] [] [] [] finfinity bestOrder0 [] [])).
Qed.

Lemma map_constant {A B : Type} (f : A -> B) (c : B) (l : list A) :
  (forall x, x ∈ l -> f x = c) -> map f l = replicate (length l) c.
Proof.
  induction l as [|x l IH]; intros Hf; simpl; [reflexivity|].
  rewrite Hf by apply list_elem_of_here. f_equal. apply IH.
  intros y Hy. apply Hf. now apply list_elem_of_further.
Qed.

(** [main] ends with -1 exactly when the fit of the differenced training
    prices at order 20 fails; otherwise it ends with 0.  When it ends with
    -1, no order from 20 to 80 was fitted: [ar_mses.txt] holds 61 times
    infinity, and [forecasted_prices.txt] is not written. *)
Theorem main_failure (fullPrices : list T) (fs : gmap string (list T)) :
  fullPrices <> [] ->
  let diffData := difference (take 240 fullPrices) in
  (fst (main fullPrices fs) = -1
   <-> fst (fst (computeCoefficients (newARModel diffData 20))) = false)
  /\ (fst (main fullPrices fs) = -1 ->
      snd (main fullPrices fs) !! "ar_mses.txt"%string = Some (replicate 61 finfinity)
      /\ snd (main fullPrices fs) !! "forecasted_prices.txt"%string
         = fs !! "forecasted_prices.txt"%string)
  /\ (fst (main fullPrices fs) = -1 \/ fst (main fullPrices fs) = 0).
Proof.
  intros Hne. cbv zeta. unfold main. cbv zeta. rewrite !main_selection_unfold.
  change (Z.to_nat 240) with 240%nat.
  assert (Hlen : Z.of_nat (length (difference (take 240 fullPrices))) < 2 ^ 31).
  { destruct (difference_entries (take 240 fullPrices)) as [Hl _].
    - rewrite length_take. destruct fullPrices; [congruence|simpl; lia].
    - rewrite length_take. lia.
    - rewrite Hl, length_take. lia. }
  set (trainPrices := take 240 fullPrices) in *.
  set (diffData := difference trainPrices) in *.
  set (validPrices := drop 240 fullPrices).
  set (lastTrainPrice := trainPrices !!! (length trainPrices - 1)%nat).
  clearbody lastTrainPrice validPrices diffData trainPrices.
  pose proof (select_order_cases diffData validPrices lastTrainPrice (300 - 240)%Z
                20 20 80) as Hcases.
  pose proof (select_order_mses diffData validPrices lastTrainPrice (300 - 240)%Z
                20 20 80) as Hmses.
  cbv zeta in Hcases.
  set (sweep := select_order 20 20 80 diffData validPrices lastTrainPrice (300 - 240)%Z)
    in *.
  clearbody sweep.
  destruct (computeCoefficients (newARModel diffData 20)) as [[ok20 m20] log20] eqn:H20.
  cbn [fst]. destruct ok20.
  - assert (Hfit : fst (fst (computeCoefficients (newARModel diffData (bestOrder sweep))))
                   = true).
    { destruct Hcases as [(_ & -> & _)|(em & log & _ & Hc & _)].
      - now rewrite H20.
      - revert Hc. unfold candidate.
        destruct (computeCoefficients (newARModel diffData (bestOrder sweep)))
          as [[[|] ?] ?]; [reflexivity|discriminate]. }
    destruct (computeCoefficients (newARModel diffData (bestOrder sweep)))
      as [[[|] bestModel] log1]; [|discriminate].
    cbn [fst]. split; [split; discriminate|]. split; [discriminate|now right].
  - assert (Hnone : forall q, 20 <= q <= 80 ->
              fst (candidate diffData validPrices lastTrainPrice (300 - 240)%Z q) = None).
    { intros q Hq. unfold candidate.
      destruct (computeCoefficients (newARModel diffData q)) as [[[|] mq] logq] eqn:Hq';
        [|reflexivity].
      exfalso.
      assert (Hs : fst (fst (computeCoefficients (newARModel diffData 20))) = true).
      { apply (fit_smaller_order diffData q 20); try lia.
        - unfold int_range. lia.
        - now rewrite Hq'. }
      rewrite H20 in Hs. discriminate. }
    assert (Hinit : bestOrder sweep = 20).
    { destruct Hcases as [(_ & Hb & _)|(em & log & Hin & Hc & _)]; [exact Hb|].
      specialize (Hnone (bestOrder sweep) Hin). rewrite Hc in Hnone. discriminate. }
    rewrite Hinit, H20. cbn [fst snd].
    split; [split; reflexivity|]. split; [|now left].
    intros _. unfold writeVectorToFile. split.
    + skip_writes. rewrite lookup_insert_eq. f_equal. rewrite Hmses.
      rewrite (map_constant _ finfinity).
      * rewrite length_seqZ. reflexivity.
      * intros q Hq. apply elem_of_seqZ in Hq. rewrite Hnone by lia. reflexivity.
    + skip_writes. reflexivity.
Qed.

End MainProgram.

(** ** Error metrics and transforms in exact arithmetic *)

Section ExactMetricsMore.
Local Open Scope R_scope.

Lemma squared_errors_nonneg (pairs : list (R * R)) :
  0 <= Rsum (map squared_error pairs).
Proof.
  apply Rsum_nonneg, Forall_forall. intros x Hx.
  apply list_elem_of_In, in_map_iff in Hx as ([f a] & <- & _).
  change (0 <= (f - a) * (f - a)). pose proof (Rle_0_sqr (f - a)) as Hsq.
  unfold Rsqr in Hsq. exact Hsq.
Qed.

Lemma squared_errors_zero (forecast actual : list R) :
  length forecast = length actual ->
  Rsum (map squared_error (zip forecast actual)) = 0 <-> forecast = actual.
Proof.
  revert actual. induction forecast as [|f forecast IH]; intros [|a actual] Hlen;
    try discriminate.
  - simpl. tauto.
  - simpl in Hlen. injection Hlen as Hlen. specialize (IH actual Hlen).
    change (Rsum (map squared_error (zip (f :: forecast) (a :: actual))))
      with ((f - a) * (f - a) + Rsum (map squared_error (zip forecast actual))).
    pose proof (squared_errors_nonneg (zip forecast actual)) as Hpos.
    pose proof (Rle_0_sqr (f - a)) as Hsq. unfold Rsqr in Hsq.
    split.
    + intros Hs.
      assert (Hfa : (f - a) * (f - a) = 0) by lra.
      assert (Hrest : Rsum (map squared_error (zip forecast actual)) = 0) by lra.
      apply Rmult_integral in Hfa.
      f_equal; [destruct Hfa; lra|now apply IH].
    + intros [= -> Heq]. apply IH in Heq. rewrite Heq. lra.
Qed.

(** In exact arithmetic, for two series of one non-zero length: the MSE and
    the RMSE are not negative, the RMSE squared is the MSE, and the MSE is 0
    exactly when the forecast is the actual series. *)
Theorem mse_zero_iff_equal (forecast actual : list R) :
  length forecast = length actual -> forecast <> [] ->
  let em := computeErrors forecast actual in
  0 <= mse em /\ 0 <= rmse em /\ rmse em * rmse em = mse em
  /\ (mse em = 0 <-> forecast = actual).
Proof.
  intros Hlen Hne. cbv zeta.
  rewrite computeErrors_equal_lengths by assumption. simpl.
  rewrite sum_terms_Rsum, <- INR_IZR_INZ.
  pose proof (INR_length_pos forecast Hne) as Hn.
  pose proof (squared_errors_nonneg (zip forecast actual)) as Hs.
  assert (Hmse : 0 <= Rsum (map squared_error (zip forecast actual))
                      / INR (length forecast)).
  { apply Rmult_le_pos; [exact Hs|]. apply Rlt_le, Rinv_0_lt_compat, Hn. }
  split; [exact Hmse|]. split; [apply sqrt_pos|]. split; [now apply sqrt_sqrt|].
  rewrite <- (squared_errors_zero forecast actual Hlen). split.
  - intros Hz. apply (Rmult_eq_compat_r (INR (length forecast))) in Hz.
    unfold Rdiv in Hz. rewrite Rmult_assoc, Rinv_l, Rmult_1_r, Rmult_0_l in Hz by lra.
    exact Hz.
  - intros ->. unfold Rdiv. lra.
Qed.

(** In exact arithmetic differencing undoes integration: the differences of
    the base followed by the integrated levels are the differences that
    were integrated. *)
Theorem integrate_then_difference (base : R) (diffs : list R) :
  (Z.of_nat (length diffs) + 1 < 2 ^ 64)%Z ->
  difference (base :: integrate base diffs (Z.of_nat (length diffs))) = diffs.
Proof.
  intros Hsize. rewrite integrate_running_sum.
  destruct (difference_entries (base :: running_sum base diffs)) as [Hl Hd].
  - simpl. lia.
  - simpl. rewrite length_running_sum. lia.
  - simpl in Hl. rewrite length_running_sum, Nat.sub_0_r in Hl.
    apply vector_ext; [exact Hl|].
    intros i Hi. rewrite Hl in Hi. rewrite Hd by (simpl; rewrite length_running_sum; lia).
    pose proof (running_sum_step base diffs i Hi) as Hstep. simpl in Hstep.
    simpl. lra.
Qed.

End ExactMetricsMore.

(** ** The price generator *)

Section GeneratorProperties.
Context {T : Type} `{Scalar T}.
Variables (fexp : T -> T) (fhalf : T) (draws : nat -> T).
Local Open Scope scalar_scope.

Lemma generateGBM_passes (n : Z) (S0 mu sigma deltaT : T) (k : nat) :
  let st :=
    for_loop 0 k
      (fun '(currentPrice, prices) i =>
         let Z := draws i in
         let currentPrice :=
           currentPrice
           * fexp ((mu - fhalf * sigma * sigma) * deltaT + sigma * fsqrt deltaT * Z) in
         (currentPrice, prices ++ [currentPrice]))
      (S0, []) in
  length (snd st) = k
  /\ fst st = (S0 :: snd st) !!! k
  /\ forall i, (i < k)%nat ->
       snd st !!! i = (S0 :: snd st) !!! i * gbm_factor fexp fhalf draws mu sigma deltaT i.
Proof.
  cbv zeta.
  apply (for_loop_invariant
    (fun k (st : T * list T) =>
       length (snd st) = k
       /\ fst st = (S0 :: snd st) !!! k
       /\ forall i, (i < k)%nat ->
            snd st !!! i = (S0 :: snd st) !!! i * gbm_factor fexp fhalf draws mu sigma deltaT i));
    [lia| |].
  - simpl. repeat split. intros; lia.
  - intros i [cur prices] _ (Hl & Hcur & Hrec). simpl in *.
    split; [rewrite length_app; simpl; lia|]. split.
    + now rewrite list_lookup_total_middle by (symmetry; exact Hl).
    + intros j Hj. destruct (Nat.eq_dec j i) as [->|Hne].
      * rewrite list_lookup_total_middle by (symmetry; exact Hl).
        rewrite Hcur. unfold gbm_factor. f_equal.
        destruct i as [|i]; [reflexivity|]. simpl.
        rewrite lookup_total_app_l by lia. reflexivity.
      * rewrite lookup_total_app_l by lia. rewrite Hrec by lia. f_equal.
        destruct j as [|j]; [reflexivity|]. simpl.
        rewrite lookup_total_app_l by lia. reflexivity.
Qed.

Lemma generateGBM_entries (n : Z) (S0 mu sigma deltaT : T) :
  let prices := generateGBM fexp fhalf draws n S0 mu sigma deltaT in
  length prices = Z.to_nat n
  /\ forall i, (i < Z.to_nat n)%nat ->
       prices !!! i = (S0 :: prices) !!! i * gbm_factor fexp fhalf draws mu sigma deltaT i.
Proof.
  cbv zeta. unfold generateGBM.
  destruct (generateGBM_passes n S0 mu sigma deltaT (Z.to_nat n)) as (Hl & _ & Hrec).
  split; [exact Hl|exact Hrec].
Qed.

(** For [0 <= n], [generateGBM] returns [n] prices; the first is [S0] times
    the factor of pass 0 and every other one the price before it times the
    factor of its pass. *)
Theorem generateGBM_prices (n : Z) (S0 mu sigma deltaT : T) :
  (0 <= n)%Z ->
  let prices := generateGBM fexp fhalf draws n S0 mu sigma deltaT in
  Z.of_nat (length prices) = n
  /\ forall i, (Z.of_nat i < n)%Z ->
       prices !!! i = (S0 :: prices) !!! i * gbm_factor fexp fhalf draws mu sigma deltaT i.
Proof.
  intros Hn. cbv zeta.
  destruct (generateGBM_entries n S0 mu sigma deltaT) as [Hl Hrec].
  split; [lia|]. intros i Hi. apply Hrec. lia.
Qed.

End GeneratorProperties.



(** ** The properties on concrete inputs *)

Lemma computeCoefficients_again_witness :
  let m := snd (fst (computeCoefficients (newARModel [1; 2; 2; 1]%float 3))) in
  computeCoefficients m = (true, m, []).
Proof.
  refine (computeCoefficients_again (newARModel [1; 2; 2; 1]%float 3) _ [] _).
  vm_compute. reflexivity.
Defined.

Lemma computeCoefficients_outcome_witness :
  let m0 := newARModel [1; 2; 2; 1]%float 3 in
  let '(ok, m, log) := computeCoefficients m0 in
  data_ m = data_ m0 /\ order_ m = order_ m0
  /\ if ok
     then Z.of_nat (length (coefficients_ m)) = order_ m0
          /\ Z.of_nat (length (autocorrelation_ m)) = order_ m0 + 1
          /\ feqb (autocorrelation_ m !!! 0%nat) fzero = false
          /\ order_ m0 <= Z.of_nat (length (data_ m0))
          /\ log = []
     else coefficients_ m = coefficients_ m0 /\ length log = 1%nat.
Proof.
  refine (computeCoefficients_outcome (newARModel [1; 2; 2; 1]%float 3) _ _).
  - unfold int_range. simpl. lia.
  - simpl. lia.
Defined.

Lemma levinson_durbin_vectors_witness :
  let ac := [2.5; 2; 1; 0.25]%float in
  let '(a, e) := levinson_durbin ac 3 in
  Z.of_nat (length a) = 3 + 1 /\ Z.of_nat (length e) = 3 + 1
  /\ a !!! 0%nat = fone /\ e !!! 0%nat = ac !!! 0%nat
  /\ (1 <= 3 ->
      let lambda := ((ac !!! 1%nat - fzero) / ac !!! 0%nat)%sc in
      e !!! 1%nat = (ac !!! 0%nat * (fone - lambda * lambda))%sc)
  /\ forall k, (1 <= k)%nat -> Z.of_nat k <= 3 ->
       exists lambda, e !!! k = (e !!! (k - 1)%nat * (fone - lambda * lambda))%sc.
Proof.
  refine (levinson_durbin_vectors [2.5; 2; 1; 0.25]%float 3 _). lia.
Defined.

Lemma small_order_coefficients_witness :
  let m0 := newARModel [1; 2; 2; 1]%float 2 in
  getCoefficients (snd (fst (computeCoefficients m0))) = reference_coefficients m0.
Proof.
  refine (small_order_coefficients (newARModel [1; 2; 2; 1]%float 2) _ [] _ _).
  - simpl. lia.
  - vm_compute. reflexivity.
Defined.

Lemma autocorrelation_bounded_witness :
  let ac := autocorrelation_ (computeAutocorrelation (newARModel [1; 2]%R 1)) in
  (Rabs (ac !!! 1%nat) <= ac !!! 0%nat)%R.
Proof.
  refine (autocorrelation_bounded (newARModel [1; 2]%R 1) 1 _ _ _).
  - discriminate.
  - simpl. lia.
  - simpl. lia.
Defined.

Lemma degenerate_iff_all_zero_witness :
  fst (fst (computeCoefficients (newARModel [0; 0; 0]%R 2))) = false
  <-> Forall (fun x => x = 0%R) [0; 0; 0]%R.
Proof.
  refine (degenerate_iff_all_zero (newARModel [0; 0; 0]%R 2) _ _ _).
  - discriminate.
  - simpl. lia.
  - simpl. lia.
Defined.

Lemma prediction_error_first_passes_witness :
  let m := newARModel [1; 2; 2; 1]%R 3 in
  let ac := autocorrelation_ (computeAutocorrelation m) in
  let e := snd (levinson_durbin ac (order_ m)) in
  (0 <= e !!! 1%nat <= e !!! 0%nat)%R
  /\ (forall k, (1 <= k)%nat -> Z.of_nat k <= order_ m ->
        (0 <= e !!! (k - 1)%nat)%R -> (e !!! k <= e !!! (k - 1)%nat)%R)
  /\ (2 <= order_ m -> (e !!! 2%nat <= e !!! 1%nat)%R).
Proof.
  refine (prediction_error_first_passes (newARModel [1; 2; 2; 1]%R 3) _ _ _ _).
  - discriminate.
  - simpl. lia.
  - simpl. lia.
  - exact_run. lra.
Defined.

Lemma candidate_forecast_witness :
  let forecast := [1; 1]%float in
  let em := mkErrors 0.5%float (PrimFloat.sqrt 0.5) 25%float in
  length forecast = Z.to_nat 2
  /\ em = computeErrors forecast [1; 2]%float
  /\ (length [1; 2]%float <> Z.to_nat 2 -> em = mkErrors fzero fzero fzero).
Proof.
  refine (candidate_forecast [1; 0; 0; 0]%float [1; 2]%float 1%float 2 1
            [1; 1]%float (mkErrors 0.5%float (PrimFloat.sqrt 0.5) 25%float) [] _).
  vm_compute. reflexivity.
Defined.

Lemma sweep_best_minimal_witness :
  fltb 0.5%float
    (bestMse (select_order 1 1 3 [1; 0; 0; 0]%float [1; 2]%float 1%float 2))
  = false.
Proof.
  refine (sweep_best_minimal [1; 0; 0; 0]%float [1; 2]%float 1%float 2 1 1 3 2
            [1; 1]%float (mkErrors 0.5%float (PrimFloat.sqrt 0.5) 25%float) [] _ _).
  - lia.
  - vm_compute. reflexivity.
Defined.

Lemma fit_order_monotone_witness :
  fst (fst (computeCoefficients (newARModel [1; 2; 2; 1]%float 1))) = true.
Proof.
  refine (fit_order_monotone [1; 2; 2; 1]%float 3 1 _ _ _ _).
  - unfold int_range. lia.
  - lia.
  - simpl. lia.
  - vm_compute. reflexivity.
Defined.

Lemma mse_zero_iff_equal_witness :
  let em := computeErrors [1; 2]%R [2; 0]%R in
  (0 <= mse em /\ 0 <= rmse em /\ rmse em * rmse em = mse em
   /\ (mse em = 0 <-> [1; 2] = [2; 0]))%R.
Proof.
  refine (mse_zero_iff_equal [1; 2]%R [2; 0]%R _ _); [reflexivity|discriminate].
Defined.

Lemma integrate_then_difference_witness :
  difference (100 :: integrate 100 [2; -1; 4] (Z.of_nat 3))%R = [2; -1; 4]%R.
Proof.
  refine (integrate_then_difference 100%R [2; -1; 4]%R _). simpl. lia.
Defined.


(** Three prices from 100 with all draws 0. *)
Lemma generateGBM_prices_witness :
  let prices := generateGBM exp (1 / 2)%R (fun _ => 0%R) 3 100%R 0%R 1%R 1%R in
  Z.of_nat (length prices) = 3
  /\ forall i, Z.of_nat i < 3 ->
       prices !!! i
       = ((100%R :: prices) !!! i
          * gbm_factor exp (1 / 2)%R (fun _ => 0%R) 0%R 1%R 1%R i)%R.
Proof.
  refine (generateGBM_prices exp (1 / 2)%R (fun _ => 0%R) 3 100%R 0%R 1%R 1%R _). lia.
Defined.

(** On the alternating prices the sweep keeps the forecast of order 20, and
    [main] writes it. *)
Lemma main_writes_best_forecast_witness :
  let sweep := main_selection alternating_prices in
  fst (main alternating_prices ∅) = 0
  /\ snd (main alternating_prices ∅) !! "forecasted_prices.txt"%string
     = Some (bestForecastedPrices sweep)
  /\ snd (main alternating_prices ∅) !! "validation_mse.txt"%string
     = Some [bestMse sweep].
Proof.
  refine (main_writes_best_forecast alternating_prices ∅ _).
  vm_compute. discriminate.
Defined.

(** On the constant prices every difference is 0 and no order is fitted. *)
Lemma main_failure_witness :
  let diffData := difference (take 240 constant_prices) in
  (fst (main constant_prices ∅) = -1
   <-> fst (fst (computeCoefficients (newARModel diffData 20))) = false)
  /\ (fst (main constant_prices ∅) = -1 ->
      snd (main constant_prices ∅) !! "ar_mses.txt"%string
      = Some (replicate 61 finfinity)
      /\ snd (main constant_prices ∅) !! "forecasted_prices.txt"%string
         = (∅ : gmap string (list float)) !! "forecasted_prices.txt"%string)
  /\ (fst (main constant_prices ∅) = -1 \/ fst (main constant_prices ∅) = 0).
Proof.
  refine (main_failure constant_prices ∅ _). discriminate.
Defined.

(** The exit code on the constant prices is -1. *)
Example main_constant_prices :
  fst (fst (computeCoefficients
              (newARModel (difference (take 240 constant_prices)) 20))) = false.
Proof. vm_compute. reflexivity. Qed.
